(** * Chunked UTF-8 character decoder and RFC 4180 CSV parser

    Shallow embedding of [src/js/iterateCharactersFromFile.js] and
    [src/js/csvParser.js], with the properties the specification states
    about them. *)

From Stdlib Require Import ZArith List Lia Bool String.
From stdpp Require Import base list numbers.
Import ListNotations.

Local Open Scope Z_scope.

(** ** JavaScript values used by both programs *)

Module JS.

(** [a.slice(b, e)] on an array of length [len]: a negative index counts
    from the end, indices are clamped to [0..len], and an empty range
    gives the empty array. *)
Definition slice {A} (a : list A) (b e : Z) : list A :=
  let len := Z.of_nat (length a) in
  let k := if b <? 0 then Z.max (len + b) 0 else Z.min b len in
  let final := if e <? 0 then Z.max (len + e) 0 else Z.min e len in
  take (Z.to_nat (final - k)) (drop (Z.to_nat k) a).

(** [a[i]]: [None] is [undefined], the value of an index out of range. *)
Definition index {A} (a : list A) (i : Z) : option A :=
  if i <? 0 then None else a !! Z.to_nat i.

Definition len {A} (a : list A) : Z := Z.of_nat (length a).

End JS.

(** ** iterateCharactersFromFile.js *)

Module Decoder.

(** A byte of a [Uint8Array]. *)
Abbreviation byte := Z (only parsing).
Abbreviation bytes := (list Z) (only parsing).

(** [charBytes(head)].  [head] is [undefined] when the caller reads past
    the end of the chunk; every comparison with [undefined] is false, so
    the last branch is taken. *)
Definition charBytes (head : option byte) : Z :=
  match head with
  | Some h =>
      if 240 <=? h then 4
      else if 224 <=? h then 3
      else if 192 <=? h then 2
      else 1
  | None => 1
  end.

(** The two variables of the generator that outlive one pass of the
    [while] body. *)
Record vars := Vars { fragment : bytes; start : Z }.

(** Outcome of the [if (start === 0 && fragment.length > 0)] block. *)
Inductive flow :=
| Continue (v : vars)                    (* [continue]: next pass *)
| Completed (combined : bytes) (v : vars) (* [yield combined], go on *)
| Skipped (v : vars).                    (* condition false *)

(** Lines 11-36: complete the character begun in an earlier chunk. *)
Definition complete_fragment (chunk : bytes) (v : vars) : flow :=
  let chunkSize := JS.len chunk in
  if (start v =? 0) && (0 <? JS.len (fragment v)) then
    let n := charBytes (JS.index (fragment v) 0) in
    let remainSize := n - JS.len (fragment v) in
    if start v + remainSize >? chunkSize then
      Continue {| fragment := fragment v ++ chunk; start := chunkSize |}
    else
      let remain := JS.slice chunk (start v) remainSize in
      let combined := fragment v ++ remain in
      Completed combined {| fragment := []; start := remainSize |}
  else Skipped v.

(** Lines 38-58: the character that begins at [start]. *)
Definition next_character (chunk : bytes) (v : vars) : list bytes * vars :=
  let chunkSize := JS.len chunk in
  let n := charBytes (JS.index chunk (start v)) in
  let carryOver := start v + n >? chunkSize in
  let end_ := if carryOver then chunkSize else start v + n in
  let character := JS.slice chunk (start v) end_ in
  if carryOver
  then ([], {| fragment := character; start := end_ |})
  else ([character], {| fragment := fragment v; start := end_ |}).

(** One pass of the [while (start < chunkSize)] body: the values it
    yields, in order, and the variables after it. *)
Definition while_body (chunk : bytes) (v : vars) : list bytes * vars :=
  match complete_fragment chunk v with
  | Continue v' => ([], v')
  | Completed combined v' =>
      let '(ys, v'') := next_character chunk v' in (combined :: ys, v'')
  | Skipped v' => next_character chunk v'
  end.

(** [while (start < chunkSize) { ... }]; [None] when the fuel runs out
    before the loop condition fails. *)
Fixpoint while_start (fuel : nat) (chunk : bytes) (v : vars)
  : option (list bytes * vars) :=
  if start v <? JS.len chunk then
    match fuel with
    | O => None
    | S fuel' =>
        let '(ys, v') := while_body chunk v in
        match while_start fuel' chunk v' with
        | Some (zs, v'') => Some (ys ++ zs, v'')
        | None => None
        end
    end
  else Some ([], v).

(** [for await (const chunk of ...)]: [start] is a fresh variable of each
    round, [fragment] is carried from one chunk to the next. *)
Fixpoint for_chunks (chunks : list bytes) (frag : bytes)
  : option (list bytes * bytes) :=
  match chunks with
  | [] => Some ([], frag)
  | chunk :: rest =>
      match while_start (length chunk) chunk {| fragment := frag; start := 0 |} with
      | None => None
      | Some (ys, v) =>
          match for_chunks rest (fragment v) with
          | Some (zs, frag') => Some (ys ++ zs, frag')
          | None => None
          end
      end
  end.

(** What a consumer that drains the generator observes. *)
Record run := Run {
  characters : list bytes;   (* the yielded values, in order *)
  leftover : bytes;          (* [fragment] after the last chunk *)
  warned : bool              (* whether the diagnostic was logged *)
}.

(** [iterateCharactersFromFile(file)], as a function of the chunks that
    [iterateChunksFromFile(file)] delivers. *)
Definition iterateCharactersFromFile (chunks : list bytes) : option run :=
  match for_chunks chunks [] with
  | Some (cs, frag) =>
      Some {| characters := cs; leftover := frag;
              warned := 0 <? JS.len frag |}
  | None => None
  end.

(** *** Vocabulary of the decoder's contract *)

Definition continuation (b : byte) : bool := (128 <=? b) && (b <=? 191).

(** The well-formed UTF-8 byte sequences of one Unicode scalar value
    (Unicode Standard, table 3-7). *)
Definition scalar_encoding (c : bytes) : bool :=
  match c with
  | [b0] => (0 <=? b0) && (b0 <=? 127)
  | [b0; b1] => (194 <=? b0) && (b0 <=? 223) && continuation b1
  | [b0; b1; b2] =>
      (((b0 =? 224) && (160 <=? b1) && (b1 <=? 191))
       || ((225 <=? b0) && (b0 <=? 236) && continuation b1)
       || ((b0 =? 237) && (128 <=? b1) && (b1 <=? 159))
       || ((238 <=? b0) && (b0 <=? 239) && continuation b1))
      && continuation b2
  | [b0; b1; b2; b3] =>
      (((b0 =? 240) && (144 <=? b1) && (b1 <=? 191))
       || ((241 <=? b0) && (b0 <=? 243) && continuation b1)
       || ((b0 =? 244) && (128 <=? b1) && (b1 <=? 143)))
      && continuation b2 && continuation b3
  | _ => false
  end.

(** A buffer is well formed and complete when it is the concatenation of
    encodings of scalar values. *)
Definition well_formed (buf : bytes) : Prop :=
  exists cs : list bytes,
    Forall (fun c => scalar_encoding c = true) cs /\ concat cs = buf.

(** A Character as long as its own leading byte announces. *)
Definition whole (c : bytes) : Prop :=
  c <> [] /\ JS.len c = charBytes (head c).

(** A pending fragment: shorter than its leading byte announces. *)
Definition pending (f : bytes) : Prop :=
  0 < JS.len f < charBytes (head f).

(** What [fragment] may hold between two chunks. *)
Definition carried (f : bytes) : Prop := f = [] \/ pending f.

End Decoder.

(** ** csvParser.js *)

Module CSV.

(** A JavaScript string is a sequence of UTF-16 code units; [input[i]] is
    the one at position [i]. *)
Abbreviation codeunit := Z (only parsing).
Abbreviation str := (list Z) (only parsing).

Definition COMMA : codeunit := 44.
Definition DQ : codeunit := 34.
Definition CR : codeunit := 13.
Definition LF : codeunit := 10.
Definition TAB : codeunit := 9.

(** The [opts] argument; [None] is a property that is not set. *)
Record Opts := {
  opt_strict : option bool;
  opt_allowBareLF : option bool;
  opt_allowBareCR : option bool
}.

(** The [SyntaxError]s the parser throws, one per message. *)
Inductive SyntaxError :=
| BareNewlineNotAllowed
| UnexpectedQuoteInUnquotedField
| ControlCharNotAllowed
| QuoteInsideUnquotedField
| IllegalCharacterInUnquotedField
| InvalidCharacterAfterClosingQuote
| UnterminatedQuotedField.

Definition message (e : SyntaxError) : string :=
  match e with
  | BareNewlineNotAllowed => "Bare newline is not allowed (use CRLF)"
  | UnexpectedQuoteInUnquotedField => "Unexpected quote in unquoted field"
  | ControlCharNotAllowed => "Control char not allowed in unquoted field"
  | QuoteInsideUnquotedField => "Quote inside unquoted field"
  | IllegalCharacterInUnquotedField => "Illegal character in unquoted field"
  | InvalidCharacterAfterClosingQuote => "Invalid character after closing quote"
  | UnterminatedQuotedField => "Unterminated quoted field"
  end%string.

Inductive result (A : Type) :=
| Ok (a : A)
| Throw (e : SyntaxError).
Arguments Ok {A} a.
Arguments Throw {A} e.

Inductive STATE := START_FIELD | IN_FIELD | IN_QUOTED | AFTER_QUOTE.

(** The mutable locals of [parseCSV]. *)
Record locals := Locals {
  rows : list (list str);
  row : list str;
  field : str;
  state : STATE;
  i : nat
}.

Definition isControl (ch : codeunit) : bool :=
  let code := ch in
  ((0 <=? code) && (code <=? 31)) || (code =? 127).

Definition endField (l : locals) : locals :=
  {| rows := rows l; row := row l ++ [field l]; field := [];
     state := state l; i := i l |}.

Definition endRecord (l : locals) : locals :=
  let l := endField l in
  {| rows := rows l ++ [row l]; row := []; field := field l;
     state := state l; i := i l |}.

Definition set_state (s : STATE) (l : locals) : locals :=
  {| rows := rows l; row := row l; field := field l; state := s; i := i l |}.

(** [field += ch] *)
Definition append (ch : codeunit) (l : locals) : locals :=
  {| rows := rows l; row := row l; field := field l ++ [ch];
     state := state l; i := i l |}.

(** [i += k] *)
Definition advance (k : nat) (l : locals) : locals :=
  {| rows := rows l; row := row l; field := field l; state := state l;
     i := (i l + k)%nat |}.

(** [next === LF], where [next] is [None] for the empty string. *)
Definition is_char (next : option codeunit) (c : codeunit) : bool :=
  match next with
  | Some x => x =? c
  | None => false
  end.

Section Parse.
Variables strict allowBareLF allowBareCR : bool.
Variable input : str.

(** One pass of the body of [while (i < n)], at [ch = input[i]]. *)
Definition step (l : locals) (ch : codeunit) : result locals :=
  let n := length input in
  let next := if (i l + 1 <? n)%nat then input !! (i l + 1)%nat else None in
  let hasCRLF := (ch =? CR) && is_char next LF in
  match state l with
  | START_FIELD =>
      if ch =? DQ then Ok (advance 1 (set_state IN_QUOTED l))
      else if ch =? COMMA then Ok (advance 1 (endField l))
      else if hasCRLF then Ok (advance 2 (endRecord l))
      else if ((ch =? LF) && allowBareLF) || ((ch =? CR) && allowBareCR)
      then Ok (advance 1 (endRecord l))
      else if (ch =? CR) || (ch =? LF) then
        if strict then Throw BareNewlineNotAllowed
        else Ok (advance 1 (endRecord l))
      else if (ch =? DQ) && strict then Throw UnexpectedQuoteInUnquotedField
      else if strict && (isControl ch && negb (ch =? TAB))
      then Throw ControlCharNotAllowed
      else Ok (advance 1 (append ch (set_state IN_FIELD l)))
  | IN_FIELD =>
      if ch =? COMMA then Ok (advance 1 (set_state START_FIELD (endField l)))
      else if hasCRLF then Ok (advance 2 (set_state START_FIELD (endRecord l)))
      else if ((ch =? LF) && allowBareLF) || ((ch =? CR) && allowBareCR)
      then Ok (advance 1 (set_state START_FIELD (endRecord l)))
      else if (ch =? DQ) && strict then Throw QuoteInsideUnquotedField
      else if strict && ((ch =? CR) || (ch =? LF) || (ch =? DQ))
      then Throw IllegalCharacterInUnquotedField
      else if strict && (isControl ch && negb (ch =? TAB))
      then Throw ControlCharNotAllowed
      else Ok (advance 1 (append ch l))
  | IN_QUOTED =>
      if ch =? DQ then Ok (advance 1 (set_state AFTER_QUOTE l))
      else Ok (advance 1 (append ch l))
  | AFTER_QUOTE =>
      if ch =? DQ then Ok (advance 1 (set_state IN_QUOTED (append DQ l)))
      else if ch =? COMMA then Ok (advance 1 (set_state START_FIELD (endField l)))
      else if hasCRLF then Ok (advance 2 (set_state START_FIELD (endRecord l)))
      else if ((ch =? LF) && allowBareLF) || ((ch =? CR) && allowBareCR)
      then Ok (advance 1 (set_state START_FIELD (endRecord l)))
      else if strict then Throw InvalidCharacterAfterClosingQuote
      else Ok (advance 1 (append ch (set_state IN_FIELD l)))
  end.

(** [while (i < n) { ... }].  [input !! i] is [Some ch] exactly when
    [i < n]; [None] as a result means the fuel ran out first. *)
Fixpoint while_i (fuel : nat) (l : locals) : option (result locals) :=
  match input !! i l with
  | None => Some (Ok l)
  | Some ch =>
      match fuel with
      | O => None
      | S fuel' =>
          match step l ch with
          | Throw e => Some (Throw e)
          | Ok l' => while_i fuel' l'
          end
      end
  end.

(** The [switch (state)] after the loop. *)
Definition at_eof (l : locals) : result (list (list str)) :=
  match state l with
  | IN_QUOTED =>
      if strict then Throw UnterminatedQuotedField
      else let l := endField l in Ok (rows l ++ [row l])
  | AFTER_QUOTE | IN_FIELD | START_FIELD =>
      if negb (bool_decide (field l = [])) || (0 <? length (row l))%nat
      then let l := endField l in Ok (rows l ++ [row l])
      else Ok (rows l)
  end.

Definition initial : locals :=
  {| rows := []; row := []; field := []; state := START_FIELD; i := O |}.

Definition parse : option (result (list (list str))) :=
  match while_i (length input) initial with
  | None => None
  | Some (Throw e) => Some (Throw e)
  | Some (Ok l) => Some (at_eof l)
  end.
End Parse.

(** [parseCSV(input, opts)]: [strict] unless [opts.strict] is [false];
    the two allow flags only when set to [true]. *)
Definition parseCSV (input : str) (opts : Opts)
  : option (result (list (list str))) :=
  let strict := negb (bool_decide (opt_strict opts = Some false)) in
  let allowBareLF := bool_decide (opt_allowBareLF opts = Some true) in
  let allowBareCR := bool_decide (opt_allowBareCR opts = Some true) in
  parse strict allowBareLF allowBareCR input.

(** [{ strict, allowBareLF, allowBareCR }] with all three set. *)
Definition options (strict allowBareLF allowBareCR : bool) : Opts :=
  {| opt_strict := Some strict; opt_allowBareLF := Some allowBareLF;
     opt_allowBareCR := Some allowBareCR |}.

End CSV.


(** ** iterateChunksFromFile and the generator as it is called *)

Module Source.

Import Decoder.

(** [CHUNK_SIZE]: one mebibyte. *)
Definition CHUNK_SIZE : Z := 1 * 1024 * 1024.

(** [while (offset < file.size) { ... }] of [iterateChunksFromFile], the
    file being its bytes and [want] the size asked for in each round;
    [file.slice] clamps its bounds as an array's [slice] does.  The result
    lists the chunks yielded; [None] when the fuel runs out first. *)
Fixpoint while_offset (want : Z) (fuel : nat) (file : bytes) (offset : Z)
  : option (list bytes) :=
  if offset <? JS.len file then
    match fuel with
    | O => None
    | S fuel' =>
        let end_ := Z.min (offset + want) (JS.len file) in
        let buf := JS.slice file offset end_ in
        match while_offset want fuel' file end_ with
        | Some chunks => Some (buf :: chunks)
        | None => None
        end
    end
  else Some [].

(** [iterateChunksFromFile(file)], drained. *)
Definition iterateChunksFromFile (file : bytes) : option (list bytes) :=
  while_offset CHUNK_SIZE (length file) file 0.

(** [iterateCharactersFromFile(file)] as the source calls it: over the
    chunks of [iterateChunksFromFile(file)]. *)
Definition charactersOfFile (file : bytes) : option run :=
  match iterateChunksFromFile file with
  | Some chunks => iterateCharactersFromFile chunks
  | None => None
  end.

End Source.

(** ** Writing a table, to state what the parser reads back *)

Module Writer.

Import CSV.

(** A field as it is written in a record: inside quotes, or bare. *)
Inductive cell :=
| Quoted (f : str)
| Bare (f : str).

Definition content (c : cell) : str :=
  match c with
  | Quoted f => f
  | Bare f => f
  end.

(** Every quote written twice. *)
Definition escape (f : str) : str :=
  flat_map (fun ch => if ch =? DQ then [DQ; DQ] else [ch]) f.

Definition write_cell (c : cell) : str :=
  match c with
  | Quoted f => DQ :: escape f ++ [DQ]
  | Bare f => f
  end.

(** The cells of a record, with a comma between two of them. *)
Fixpoint write_record (r : list cell) : str :=
  match r with
  | [] => []
  | [c] => write_cell c
  | c :: r' => write_cell c ++ COMMA :: write_record r'
  end.

(** Every record followed by the newline [nl]. *)
Definition write_lines (nl : str) (t : list (list cell)) : str :=
  flat_map (fun r => write_record r ++ nl) t.

(** The newlines that end a record under given options wherever a field
    can end: CRLF always, LF alone with [allowBareLF], CR alone with
    [allowBareCR]. *)
Definition newline_for (allowBareLF allowBareCR : bool) (nl : str) : Prop :=
  nl = [CR; LF] \/ (nl = [LF] /\ allowBareLF = true)
  \/ (nl = [CR] /\ allowBareCR = true).

(** The code units that [START_FIELD] and [IN_FIELD] buffer under every
    setting of the options: no comma, no quote, no control character
    other than TAB (so no CR and no LF). *)
Definition bare_ok (ch : codeunit) : bool :=
  negb (ch =? COMMA) && negb (ch =? DQ) && negb (isControl ch && negb (ch =? TAB)).

Definition writable (c : cell) : bool :=
  match c with
  | Quoted _ => true
  | Bare f => forallb bare_ok f
  end.

(** The state in which the parser is left by a cell it has just read. *)
Definition state_after (c : cell) : STATE :=
  match c with
  | Quoted _ => AFTER_QUOTE
  | Bare [] => START_FIELD
  | Bare (_ :: _) => IN_FIELD
  end.

(** From [l] the loop gets to [l']: whatever it returns from [l'], it
    returns from [l]. *)
Definition reaches (strict allowBareLF allowBareCR : bool) (input : str)
    (l l' : locals) : Prop :=
  forall fuel r,
    while_i strict allowBareLF allowBareCR input fuel l' = Some r ->
    exists fuel', while_i strict allowBareLF allowBareCR input fuel' l = Some r.

End Writer.

(** ** The example at the end of csvParser.js *)

Module Demo.

Import CSV.

(** [a.join(sep)] on an array of strings. *)
Fixpoint join (sep : str) (a : list str) : str :=
  match a with
  | [] => []
  | [x] => x
  | x :: a' => x ++ sep ++ join sep a'
  end.

(** The four literals, as UTF-16 code units: the header; a line of three
    quoted fields, the second with a comma and a space, the third with two
    doubled quotes and a backslash followed by n (the literal says [\\n]);
    a line whose third field is quoted and holds CR LF; a line whose second
    field is empty. *)
Definition lines : list str :=
  [ [99; 105; 116; 121; 44; 110; 97; 109; 101; 44; 99; 111; 109; 109; 101; 110; 116];
    [34; 26481; 20140; 34; 44; 34; 23665; 30000; 44; 32; 22826; 37070; 34; 44;
     34; 24444; 12399; 34; 34; 20778; 31168; 34; 34; 12391; 12377; 92; 110;
     25913; 34892; 12418; 79; 75; 34];
    [22823; 38442; 44; 20304; 34276; 44; 34; 105; 116; 101; 109; 49; 13; 10;
     105; 116; 101; 109; 50; 34];
    [31119; 23713; 44; 44; 31354; 12398; 12501; 12451; 12540; 12523; 12489] ].

Definition csv : str := join [CR; LF] lines.

(** The value passed to [console.log]. *)
Definition logged : option (result (list (list str))) :=
  parseCSV csv
    {| opt_strict := Some false; opt_allowBareLF := Some false;
       opt_allowBareCR := Some false |}.

End Demo.

(** * Properties of the decoder *)

Import Decoder.

(** ** Array primitives *)

Lemma slice_within {A} (a : list A) (b e : Z) :
  0 <= b <= e -> e <= JS.len a ->
  JS.slice a b e = take (Z.to_nat (e - b)) (drop (Z.to_nat b) a).
Proof.
  intros Hb He. unfold JS.slice, JS.len in *.
  destruct (Z.ltb_spec b 0); [lia|].
  destruct (Z.ltb_spec e 0); [lia|].
  rewrite !Z.min_l by lia. reflexivity.
Qed.

Lemma slice_to_end {A} (a : list A) (b : Z) :
  0 <= b <= JS.len a ->
  JS.slice a b (JS.len a) = drop (Z.to_nat b) a.
Proof.
  intros Hb. rewrite slice_within by lia.
  apply take_ge. rewrite length_drop. unfold JS.len in *. lia.
Qed.

Lemma index_head_drop {A} (a : list A) (i : Z) :
  0 <= i -> JS.index a i = head (drop (Z.to_nat i) a).
Proof.
  intros Hi. unfold JS.index.
  destruct (Z.ltb_spec i 0); [lia|].
  rewrite head_lookup, lookup_drop. f_equal. lia.
Qed.

Lemma index_zero {A} (a : list A) : JS.index a 0 = head a.
Proof. rewrite index_head_drop by lia. reflexivity. Qed.

Lemma charBytes_range (h : option byte) : 1 <= charBytes h <= 4.
Proof.
  destruct h as [b|]; simpl; [|lia].
  repeat (match goal with |- context [?x <=? ?y] => destruct (Z.leb_spec x y) end);
    lia.
Qed.

Lemma head_take_pos {A} (l : list A) (n : nat) :
  (0 < n)%nat -> head (take n l) = head l.
Proof. destruct n; [lia|]. destruct l; reflexivity. Qed.

Lemma head_app_nonempty {A} (l k : list A) : l <> [] -> head (l ++ k) = head l.
Proof. destruct l; [congruence|reflexivity]. Qed.

Lemma len_app {A} (l k : list A) : JS.len (l ++ k) = JS.len l + JS.len k.
Proof. unfold JS.len. rewrite length_app. lia. Qed.

Lemma len_nil_iff {A} (l : list A) : JS.len l = 0 <-> l = [].
Proof. unfold JS.len. destruct l; simpl; split; intros; try congruence; lia. Qed.

Lemma len_nonneg {A} (l : list A) : 0 <= JS.len l.
Proof. unfold JS.len. lia. Qed.

Lemma pending_nonempty (f : bytes) : pending f -> f <> [].
Proof. intros [H _] ->. unfold JS.len in H. simpl in H. lia. Qed.

(** ** One chunk *)

(** What [next_character] does from a position inside (or at the end of)
    the chunk, when no fragment is pending. *)
Lemma next_character_spec (chunk : bytes) (v : vars) :
  fragment v = [] -> 0 <= start v <= JS.len chunk ->
  exists ys v',
    next_character chunk v = (ys, v') /\ Forall whole ys /\
    ((fragment v' = [] /\ start v < start v' <= JS.len chunk /\
      drop (Z.to_nat (start v)) chunk
      = concat ys ++ drop (Z.to_nat (start v')) chunk)
     \/ (ys = [] /\ start v' = JS.len chunk /\
         fragment v' = drop (Z.to_nat (start v)) chunk /\
         carried (fragment v'))).
Proof.
  intros Hf Hs. unfold next_character.
  rewrite index_head_drop by lia.
  remember (drop (Z.to_nat (start v)) chunk) as rest eqn:Hrest.
  pose proof (charBytes_range (head rest)) as Hn.
  assert (Hlen : JS.len rest = JS.len chunk - start v).
  { subst rest. unfold JS.len in *. rewrite length_drop. lia. }
  rewrite Z.gtb_ltb.
  destruct (Z.ltb_spec (JS.len chunk) (start v + charBytes (head rest))) as [Hc|Hc].
  - (* carry over *)
    eexists _, _. split; [reflexivity|]. split; [constructor|]. right.
    simpl. rewrite slice_to_end by lia. rewrite <- Hrest.
    repeat split; try reflexivity.
    destruct rest as [|b rest'] eqn:E; [left; reflexivity|right].
    unfold pending. split; [unfold JS.len; simpl; lia|lia].
  - (* the character fits *)
    eexists _, _. split; [reflexivity|].
    rewrite slice_within by lia. rewrite <- Hrest.
    replace (start v + charBytes (head rest) - start v)
      with (charBytes (head rest)) by lia.
    assert (Hne : rest <> []).
    { intros E. rewrite E in Hlen. unfold JS.len in Hlen at 1. simpl in Hlen. lia. }
    split.
    + constructor; [|constructor]. split.
      * destruct rest; [congruence|].
        match goal with |- take ?k _ <> [] => destruct k eqn:E end;
          [lia|discriminate].
      * rewrite head_take_pos by lia. unfold JS.len.
        rewrite length_take. unfold JS.len in *. lia.
    + left. simpl. rewrite Hf. repeat split; try lia.
      rewrite app_nil_r.
      replace (Z.to_nat (start v + charBytes (head rest)))
        with (Z.to_nat (start v) + Z.to_nat (charBytes (head rest)))%nat by lia.
      rewrite <- drop_drop. rewrite <- Hrest. symmetry. apply take_drop.
Qed.

(** With no fragment pending, [complete_fragment] does nothing. *)
Lemma complete_fragment_skipped (chunk : bytes) (v : vars) :
  fragment v = [] -> complete_fragment chunk v = Skipped v.
Proof.
  intros Hf. unfold complete_fragment. rewrite Hf.
  rewrite andb_false_r. reflexivity.
Qed.

Lemma while_start_done (fuel : nat) (chunk : bytes) (v : vars) :
  JS.len chunk <= start v -> while_start fuel chunk v = Some ([], v).
Proof.
  intros H. destruct fuel; simpl;
    destruct (Z.ltb_spec (start v) (JS.len chunk)); try lia; reflexivity.
Qed.

(** The loop from a position with no fragment pending: the rest of the
    chunk is cut into whole characters and a carried tail. *)
Lemma while_start_scan (chunk : bytes) (fuel : nat) (v : vars) :
  fragment v = [] -> 0 <= start v <= JS.len chunk ->
  JS.len chunk - start v <= Z.of_nat fuel ->
  exists ys v',
    while_start fuel chunk v = Some (ys, v') /\ Forall whole ys /\
    carried (fragment v') /\
    drop (Z.to_nat (start v)) chunk = concat ys ++ fragment v'.
Proof.
  revert v. induction fuel as [|fuel IH]; intros v Hf Hs Hfuel.
  - rewrite while_start_done by lia.
    eexists _, _. split; [reflexivity|]. split; [constructor|].
    split; [left; exact Hf|]. rewrite Hf. simpl.
    apply drop_ge. unfold JS.len in *. lia.
  - simpl. destruct (Z.ltb_spec (start v) (JS.len chunk)) as [Hlt|Hge].
    + unfold while_body. rewrite complete_fragment_skipped by exact Hf.
      destruct (next_character_spec chunk v Hf Hs)
        as (ys & v' & -> & Hys & [(Hf' & Hs' & Hd)|(-> & Hs' & Hf' & Hc)]).
      * destruct (IH v' Hf' ltac:(lia) ltac:(lia)) as (zs & v'' & -> & Hzs & Hc & Hd').
        eexists _, _. split; [reflexivity|].
        split; [apply Forall_app; split; assumption|]. split; [exact Hc|].
        rewrite Hd, Hd', concat_app. rewrite <- app_assoc. reflexivity.
      * rewrite while_start_done by lia.
        eexists _, _. split; [reflexivity|]. split; [constructor|].
        split; [exact Hc|]. simpl. symmetry. exact Hf'.
    + eexists _, _. split; [reflexivity|]. split; [constructor|].
      split; [left; exact Hf|]. rewrite Hf. simpl.
      apply drop_ge. unfold JS.len in *. lia.
Qed.

(** What [complete_fragment] does at the start of a chunk when a fragment
    is pending. *)
Lemma complete_fragment_pending (chunk frag : list Z) :
  pending frag ->
  let need := charBytes (head frag) - JS.len frag in
  (JS.len chunk < need /\
   complete_fragment chunk {| fragment := frag; start := 0 |}
   = Continue {| fragment := frag ++ chunk; start := JS.len chunk |})
  \/ (0 < need <= JS.len chunk /\
      complete_fragment chunk {| fragment := frag; start := 0 |}
      = Completed (frag ++ take (Z.to_nat need) chunk)
          {| fragment := []; start := need |}).
Proof.
  intros [Hpos Hlt]. simpl. unfold complete_fragment. simpl.
  destruct (Z.ltb_spec 0 (JS.len frag)) as [_|]; [|lia].
  rewrite index_zero, Z.gtb_ltb, Z.add_0_l.
  destruct (Z.ltb_spec (JS.len chunk) (charBytes (head frag) - JS.len frag)).
  - left. split; [lia|reflexivity].
  - right. split; [lia|]. rewrite slice_within by lia.
    rewrite Z.sub_0_r. reflexivity.
Qed.

(** A whole chunk, entered with a carried fragment. *)
Lemma while_start_chunk (chunk frag : list Z) :
  carried frag ->
  exists ys v',
    while_start (length chunk) chunk {| fragment := frag; start := 0 |}
    = Some (ys, v') /\ Forall whole ys /\ carried (fragment v') /\
    frag ++ chunk = concat ys ++ fragment v'.
Proof.
  intros [->|Hp].
  - destruct (while_start_scan chunk (length chunk) {| fragment := []; start := 0 |})
      as (ys & v' & Hw & Hys & Hc & Hd); simpl; try reflexivity.
    { pose proof (len_nonneg chunk). lia. }
    { unfold JS.len. lia. }
    exists ys, v'. repeat split; assumption.
  - destruct chunk as [|b chunk'] eqn:Echunk.
    { simpl. eexists _, _. split; [reflexivity|]. split; [constructor|].
      split; [right; exact Hp|]. simpl. apply app_nil_r. }
    rewrite <- Echunk.
    assert (Hlen : JS.len chunk = Z.of_nat (S (length chunk'))).
    { subst chunk. reflexivity. }
    replace (length chunk) with (S (length chunk')) by (subst chunk; reflexivity).
    cbn [while_start start].
    destruct (Z.ltb_spec 0 (JS.len chunk)) as [_|]; [|lia].
    unfold while_body.
    pose proof (pending_nonempty _ Hp) as Hne.
    destruct (complete_fragment_pending chunk frag Hp) as [[Hn ->]|[Hn ->]].
    + rewrite while_start_done by (simpl; lia).
      eexists _, _. split; [reflexivity|]. split; [constructor|]. split.
      * right. destruct Hp as [Hp1 Hp2]. unfold pending. cbn [fragment].
        rewrite len_app, head_app_nonempty by assumption.
        pose proof (len_nonneg chunk). lia.
      * reflexivity.
    + set (need := charBytes (head frag) - JS.len frag) in *.
      assert (Hwhole : whole (frag ++ take (Z.to_nat need) chunk)).
      { split.
        - destruct frag; [congruence|discriminate].
        - rewrite len_app, head_app_nonempty by assumption.
          unfold JS.len in *. rewrite length_take. unfold need in *. lia. }
      destruct (next_character_spec chunk {| fragment := []; start := need |})
        as (ys & v' & -> & Hys & [(Hf' & Hs' & Hd)|(-> & Hs' & Hf' & Hc)]);
        simpl; try reflexivity; try lia; simpl in *.
      * destruct (while_start_scan chunk (length chunk') v' Hf')
          as (zs & v'' & -> & Hzs & Hc & Hd'); try lia.
        eexists _, _. split; [reflexivity|].
        split; [constructor; [exact Hwhole|apply Forall_app; split; assumption]|].
        split; [exact Hc|].
        simpl. rewrite concat_app, <- !app_assoc. f_equal.
        rewrite <- Hd', <- Hd. symmetry. apply take_drop.
      * rewrite while_start_done by lia.
        eexists _, _. split; [reflexivity|].
        split; [constructor; [exact Hwhole|constructor]|].
        split; [exact Hc|].
        simpl. rewrite app_nil_r, <- app_assoc. f_equal.
        rewrite Hf'. symmetry. apply take_drop.
Qed.

(** ** The whole sequence of chunks *)

(** The emitted characters and the final fragment cut the bytes read so
    far, in order, into whole characters and a carried tail. *)
Lemma for_chunks_framing (chunks : list (list Z)) (frag : list Z) :
  carried frag ->
  exists cs frag',
    for_chunks chunks frag = Some (cs, frag') /\ Forall whole cs /\
    carried frag' /\ frag ++ concat chunks = concat cs ++ frag'.
Proof.
  revert frag. induction chunks as [|chunk rest IH]; intros frag Hc.
  - exists [], frag. simpl. rewrite app_nil_r. repeat split; try assumption.
    constructor.
  - simpl.
    destruct (while_start_chunk chunk frag Hc) as (ys & v' & -> & Hys & Hc' & Hd).
    destruct (IH (fragment v') Hc') as (zs & frag' & -> & Hzs & Hc'' & Hd').
    eexists _, _. split; [reflexivity|].
    split; [apply Forall_app; split; assumption|]. split; [exact Hc''|].
    rewrite concat_app, app_assoc, Hd, <- !app_assoc. f_equal. exact Hd'.
Qed.

(** A byte sequence is cut into whole characters and a carried tail in one
    way only. *)
Lemma framing_unique (cs cs' : list (list Z)) (f f' : list Z) :
  Forall whole cs -> Forall whole cs' -> carried f -> carried f' ->
  concat cs ++ f = concat cs' ++ f' -> cs = cs' /\ f = f'.
Proof.
  revert cs'. induction cs as [|c cs IH]; intros cs' Hcs Hcs' Hf Hf' E.
  - destruct cs' as [|c' cs']; [simpl in E; auto|]. exfalso.
    inversion Hcs' as [|? ? [Hne Hlen] _]; subst.
    simpl in E. rewrite <- app_assoc in E.
    destruct Hf as [->|[Hp1 Hp2]]; [destruct c'; [congruence|discriminate]|].
    rewrite E, head_app_nonempty, len_app in Hp2 by assumption.
    pose proof (len_nonneg (concat cs' ++ f')). lia.
  - inversion Hcs as [|? ? [Hne Hlen] Hcs1]; subst.
    destruct cs' as [|c' cs'].
    + exfalso. simpl in E. rewrite <- app_assoc in E.
      destruct Hf' as [->|[Hp1 Hp2]]; [destruct c; [congruence|discriminate]|].
      rewrite <- E, head_app_nonempty, len_app in Hp2 by assumption.
      pose proof (len_nonneg (concat cs ++ f)). lia.
    + inversion Hcs' as [|? ? [Hne' Hlen'] Hcs1']; subst.
      simpl in E. rewrite <- !app_assoc in E.
      assert (Hh : head c = head c').
      { rewrite <- (head_app_nonempty c (concat cs ++ f)) by assumption.
        rewrite E. apply head_app_nonempty. assumption. }
      assert (Hl : length c = length c').
      { rewrite Hh in Hlen. unfold JS.len in *. lia. }
      apply app_inj_1 in E as [-> E]; [|exact Hl].
      destruct (IH cs' Hcs1 Hcs1' Hf Hf' E) as [-> ->]. auto.
Qed.

(** ** Runs on concrete chunks *)

(** A four-byte character spread over four chunks; the last chunk ends
    exactly where the character does, so [charBytes] is asked about a byte
    past the end and the empty slice becomes the (empty) fragment. *)
Example one_byte_chunks :
  iterateCharactersFromFile [[240]; [159]; [152]; [128]]
  = Some {| characters := [[240; 159; 152; 128]]; leftover := [];
            warned := false |}.
Proof. reflexivity. Qed.

(** A buffer that stops in the middle of a character: the fragment is
    left over and the diagnostic is logged. *)
Example truncated_buffer :
  iterateCharactersFromFile [[97; 227; 129]]
  = Some {| characters := [[97]]; leftover := [227; 129]; warned := true |}.
Proof. reflexivity. Qed.

(** ** The decoder's contract *)

(** The generator always finishes, and what it yields is a framing of the
    bytes it has read. *)
Lemma decoder_framing (chunks : list (list Z)) :
  exists r,
    iterateCharactersFromFile chunks = Some r /\ Forall whole (characters r) /\
    carried (leftover r) /\ concat chunks = concat (characters r) ++ leftover r.
Proof.
  unfold iterateCharactersFromFile.
  destruct (for_chunks_framing chunks []) as (cs & f & -> & Hcs & Hf & Hd);
    [left; reflexivity|].
  eexists. split; [reflexivity|]. simpl. auto.
Qed.

(** The yielded characters depend on the bytes only, not on where the
    chunks are cut. *)
Lemma decoder_chunking_irrelevant (chunks chunks' : list (list Z)) :
  concat chunks = concat chunks' ->
  exists r,
    iterateCharactersFromFile chunks = Some r /\
    iterateCharactersFromFile chunks' = Some r.
Proof.
  intros E.
  destruct (decoder_framing chunks) as ([cs f w] & Hr & Hcs & Hf & Hd).
  destruct (decoder_framing chunks') as ([cs' f' w'] & Hr' & Hcs' & Hf' & Hd').
  simpl in *.
  destruct (framing_unique cs cs' f f') as [-> ->]; try assumption; [congruence|].
  exists {| characters := cs'; leftover := f'; warned := w |}.
  split; [exact Hr|]. rewrite Hr'. f_equal.
  unfold iterateCharactersFromFile in Hr, Hr'.
  destruct (for_chunks chunks []) as [[? ?]|]; [|discriminate].
  destruct (for_chunks chunks' []) as [[? ?]|]; [|discriminate].
  congruence.
Qed.

Lemma scalar_encoding_whole (c : list Z) : scalar_encoding c = true -> whole c.
Proof.
  intros H. unfold whole.
  destruct c as [|b0 [|b1 [|b2 [|b3 [|b4 c]]]]]; simpl in H; try discriminate;
    (split; [discriminate|]); unfold JS.len, continuation in *; simpl;
    repeat (match goal with |- context [?x <=? ?y] => destruct (Z.leb_spec x y) end);
    try reflexivity; exfalso;
    repeat (match type of H with context [?x =? ?y] =>
              destruct (Z.eqb_spec x y) end);
    repeat (match type of H with context [?x <=? ?y] =>
              destruct (Z.leb_spec x y) end);
    simpl in H; try discriminate; lia.
Qed.

(** On a well-formed buffer the decoder yields the scalar values'
    encodings themselves and leaves nothing behind. *)
Lemma decoder_well_formed (buf : list Z) (chunks : list (list Z)) :
  well_formed buf -> concat chunks = buf ->
  exists cs,
    Forall (fun c => scalar_encoding c = true) cs /\ concat cs = buf /\
    iterateCharactersFromFile chunks
    = Some {| characters := cs; leftover := []; warned := false |}.
Proof.
  intros (cs & Hcs & Hbuf) Hchunks.
  destruct (decoder_framing chunks) as ([cs' f' w'] & Hr & Hcs' & Hf' & Hd).
  simpl in *.
  destruct (framing_unique cs cs' [] f') as [<- <-]; try assumption.
  { eapply Forall_impl; [apply scalar_encoding_whole|exact Hcs]. }
  { left; reflexivity. }
  { rewrite app_nil_r. congruence. }
  exists cs. split; [exact Hcs|]. split; [exact Hbuf|].
  rewrite Hr. unfold iterateCharactersFromFile in Hr.
  destruct (for_chunks chunks []) as [[? ?]|]; [|discriminate].
  inversion Hr; subst. reflexivity.
Qed.

Lemma for_chunks_app (before after : list (list Z)) (frag : list Z) :
  for_chunks (before ++ after) frag
  = match for_chunks before frag with
    | Some (cs, f) =>
        match for_chunks after f with
        | Some (cs', f') => Some (cs ++ cs', f')
        | None => None
        end
    | None => None
    end.
Proof.
  revert frag. induction before as [|chunk rest IH]; intros frag; simpl.
  - destruct (for_chunks after frag) as [[? ?]|]; reflexivity.
  - destruct (while_start (length chunk) chunk _) as [[ys v]|]; [|reflexivity].
    rewrite IH.
    destruct (for_chunks rest (fragment v)) as [[cs f]|]; [|reflexivity].
    destruct (for_chunks after f) as [[cs' f']|]; [|reflexivity].
    rewrite app_assoc. reflexivity.
Qed.

(** C1 (boundary invariance).  For every well-formed UTF-8 byte buffer and
    every partition of it into chunks of positive sizes, draining
    [iterateCharactersFromFile] over the chunks gives the same characters,
    in the same order, as draining it over the buffer as one chunk; in both
    runs no fragment is left and no diagnostic is logged. *)
Theorem boundary_invariance (buf : list Z) (chunks : list (list Z)) :
  well_formed buf ->
  concat chunks = buf ->
  Forall (fun chunk => 0 < JS.len chunk) chunks ->
  exists cs,
    iterateCharactersFromFile chunks
    = Some {| characters := cs; leftover := []; warned := false |} /\
    iterateCharactersFromFile [buf]
    = Some {| characters := cs; leftover := []; warned := false |}.
Proof.
  intros Hwf Hcat _.
  destruct (decoder_well_formed buf chunks Hwf Hcat) as (cs & _ & _ & Hr).
  exists cs. split; [exact Hr|].
  destruct (decoder_chunking_irrelevant chunks [buf]) as (r & Hr1 & Hr2).
  { simpl. rewrite app_nil_r. exact Hcat. }
  congruence.
Qed.

Lemma boundary_invariance_witness :
  exists cs,
    iterateCharactersFromFile [[97; 227]; [129]; [130; 240; 159]; [152; 128]]
    = Some {| characters := cs; leftover := []; warned := false |} /\
    iterateCharactersFromFile [[97; 227; 129; 130; 240; 159; 152; 128]]
    = Some {| characters := cs; leftover := []; warned := false |}.
Proof.
  apply (boundary_invariance [97; 227; 129; 130; 240; 159; 152; 128]).
  - exists [[97]; [227; 129; 130]; [240; 159; 152; 128]].
    split; [repeat constructor|reflexivity].
  - reflexivity.
  - repeat constructor.
Defined.

(** C4 (no split emission).  For every well-formed and complete UTF-8
    buffer, however it is cut into chunks, every character the decoder
    yields is as long as [charBytes] of its own first byte says (4 from
    0xF0, 3 from 0xE0, 2 from 0xC0, otherwise 1), and the yielded
    characters concatenated in order are the buffer. *)
Theorem no_split_emission (buf : list Z) (chunks : list (list Z)) :
  well_formed buf ->
  concat chunks = buf ->
  exists r,
    iterateCharactersFromFile chunks = Some r /\
    Forall (fun c => exists b,
                JS.index c 0 = Some b /\
                JS.len c = charBytes (Some b) /\
                charBytes (Some b)
                = (if 240 <=? b then 4 else if 224 <=? b then 3
                   else if 192 <=? b then 2 else 1))
           (characters r) /\
    concat (characters r) = buf.
Proof.
  intros Hwf Hcat.
  destruct (decoder_well_formed buf chunks Hwf Hcat) as (cs & Hcs & Hbuf & Hr).
  eexists. split; [exact Hr|]. simpl. split; [|exact Hbuf].
  eapply Forall_impl; [|exact Hcs].
  intros c Hc. apply scalar_encoding_whole in Hc as [Hne Hlen].
  destruct c as [|b c]; [congruence|].
  exists b. rewrite index_zero. repeat split. exact Hlen.
Qed.

Lemma no_split_emission_witness :
  exists r,
    iterateCharactersFromFile [[206; 187; 240]; [159; 152]; [128; 10]] = Some r /\
    Forall (fun c => exists b,
                JS.index c 0 = Some b /\
                JS.len c = charBytes (Some b) /\
                charBytes (Some b)
                = (if 240 <=? b then 4 else if 224 <=? b then 3
                   else if 192 <=? b then 2 else 1))
           (characters r) /\
    concat (characters r) = [206; 187; 240; 159; 152; 128; 10].
Proof.
  apply (no_split_emission [206; 187; 240; 159; 152; 128; 10]).
  - exists [[206; 187]; [240; 159; 152; 128]; [10]].
    split; [repeat constructor|reflexivity].
  - reflexivity.
Defined.

(** A run in which a fragment is carried, completed by the next chunk and
    followed by one more character: nothing of the fragment stays behind. *)
Example fragment_completed_then_gone :
  iterateCharactersFromFile [[97; 227]; [129; 130; 98]]
  = Some {| characters := [[97]; [227; 129; 130]; [98]]; leftover := [];
            warned := false |}.
Proof. reflexivity. Qed.

(** C9 (fragment invariant).  At every chunk boundary of a run, over any
    bytes at all: the fragment is exactly the bytes read and not yet
    yielded; when it is pending it is non-empty and shorter than
    [charBytes] of its first byte; the run goes on from exactly that
    fragment.  A next chunk too short to complete the character is
    appended to the fragment and nothing is yielded.  A next chunk that
    completes it makes the run yield the fragment followed by the missing
    bytes as its next character, and the fragment is then empty again:
    what the run yields and keeps after that character is cut from the
    rest of the chunk alone, so the fragment at the following boundary
    holds no byte of the old one. *)
Theorem fragment_invariant (before after : list (list Z)) :
  exists cs f,
    for_chunks before [] = Some (cs, f) /\
    for_chunks (before ++ after) []
    = match for_chunks after f with
      | Some (cs', f') => Some (cs ++ cs', f')
      | None => None
      end /\
    concat cs ++ f = concat before /\
    (f <> [] -> 0 < JS.len f < charBytes (JS.index f 0)) /\
    (forall chunk combined v',
        complete_fragment chunk {| fragment := f; start := 0 |}
        = Completed combined v' ->
        fragment v' = [] /\
        combined = f ++ JS.slice chunk 0 (charBytes (JS.index f 0) - JS.len f) /\
        JS.len combined = charBytes (JS.index combined 0)) /\
    (forall chunk,
        f <> [] ->
        let need := charBytes (JS.index f 0) - JS.len f in
        (JS.len chunk < need ->
         for_chunks (before ++ [chunk]) [] = Some (cs, f ++ chunk)) /\
        (need <= JS.len chunk ->
         exists ys f',
           for_chunks (before ++ [chunk]) []
           = Some (cs ++ (f ++ take (Z.to_nat need) chunk) :: ys, f') /\
           concat ys ++ f' = drop (Z.to_nat need) chunk /\
           (f' <> [] -> 0 < JS.len f' < charBytes (JS.index f' 0)))).
Proof.
  destruct (for_chunks_framing before []) as (cs & f & Hr & _ & Hf & Hbytes);
    [left; reflexivity|].
  exists cs, f. split; [exact Hr|]. split; [rewrite for_chunks_app, Hr; reflexivity|].
  split; [symmetry; exact Hbytes|]. split; [|split].
  - intros Hne. rewrite index_zero. destruct Hf as [->|Hp]; [congruence|exact Hp].
  - intros chunk combined v' H. destruct Hf as [->|Hp].
    + rewrite complete_fragment_skipped in H by reflexivity. discriminate.
    + pose proof (pending_nonempty _ Hp) as Hne.
      destruct (complete_fragment_pending chunk f Hp) as [[_ E]|[Hn E]];
        rewrite E in H; [discriminate|].
      inversion H; subst combined v'. simpl. split; [reflexivity|].
      rewrite !index_zero, slice_within by lia. rewrite Z.sub_0_r.
      split; [reflexivity|].
      rewrite head_app_nonempty, len_app by assumption.
      destruct Hp as [Hp1 Hp2]. unfold JS.len in *. rewrite length_take. lia.
  - intros chunk Hne. destruct Hf as [->|Hp]; [congruence|].
    destruct (for_chunks_framing [chunk] f (or_intror Hp))
      as (ys & f' & Hrun & Hys & Hf' & Hd).
    simpl in Hd. rewrite app_nil_r in Hd.
    rewrite index_zero. cbv zeta. destruct Hp as [Hp1 Hp2].
    rewrite for_chunks_app, Hr, Hrun.
    split.
    + intros Hshort.
      assert (Hc : carried (f ++ chunk)).
      { right. unfold pending. rewrite len_app, head_app_nonempty by assumption.
        pose proof (len_nonneg chunk). lia. }
      destruct (framing_unique ys [] f' (f ++ chunk) Hys (Forall_nil _) Hf' Hc)
        as [-> ->]; [symmetry; exact Hd|].
      rewrite app_nil_r. reflexivity.
    + intros Hlong.
      set (need := charBytes (head f) - JS.len f) in *.
      destruct (for_chunks_framing [drop (Z.to_nat need) chunk] [])
        as (zs & g & _ & Hzs & Hg & Hdz); [left; reflexivity|].
      simpl in Hdz. rewrite app_nil_r in Hdz.
      assert (Hwhole : whole (f ++ take (Z.to_nat need) chunk)).
      { split.
        - destruct f; [congruence|discriminate].
        - rewrite len_app, head_app_nonempty by assumption.
          unfold JS.len in *. rewrite length_take. unfold need in *. lia. }
      destruct (framing_unique ys ((f ++ take (Z.to_nat need) chunk) :: zs) f' g
                  Hys (Forall_cons _ _ _ Hwhole Hzs) Hf' Hg) as [-> ->].
      * rewrite <- Hd. simpl. rewrite <- !app_assoc, <- Hdz, take_drop. reflexivity.
      * exists zs, g. split; [reflexivity|]. split; [symmetry; exact Hdz|].
        intros Hgne. rewrite index_zero.
        destruct Hg as [->|Hg]; [congruence|exact Hg].
Qed.

(** * Properties of the parser *)

Import CSV.

Ltac split_ifs :=
  repeat match goal with
    | |- context [if ?c then _ else _] => destruct c eqn:?
    end.

Section Loop.
Variables strict allowBareLF allowBareCR : bool.
Variable input : list Z.

Local Abbreviation step := (step strict allowBareLF allowBareCR input).
Local Abbreviation while_i := (while_i strict allowBareLF allowBareCR input).

(** Every pass consumes one or two code units. *)
Lemma step_advances (l l' : locals) (ch : Z) :
  step l ch = Ok l' -> (i l < i l' <= i l + 2)%nat.
Proof.
  unfold CSV.step. destruct (state l); split_ifs; intros H;
    inversion H; subst; simpl; lia.
Qed.

(** Two are consumed only when both are there. *)
Lemma step_in_bounds (l l' : locals) (ch : Z) :
  step l ch = Ok l' -> (i l < length input)%nat -> (i l' <= length input)%nat.
Proof.
  unfold CSV.step.
  destruct (Nat.ltb_spec (i l + 1) (length input)) as [Hlt|Hge].
  - destruct (state l); split_ifs; intros H; inversion H; subst; simpl; lia.
  - unfold is_char. rewrite andb_false_r.
    destruct (state l); split_ifs; intros H; inversion H; subst; simpl; lia.
Qed.

(** The loop ends within [n - i] passes. *)
Lemma while_i_terminates (fuel : nat) (l : locals) :
  (length input - i l <= fuel)%nat -> exists r, while_i fuel l = Some r.
Proof.
  revert l. induction fuel as [|fuel IH]; intros l Hfuel; simpl.
  - destruct (input !! i l) eqn:E; [|eauto].
    apply lookup_lt_Some in E. lia.
  - destruct (input !! i l) as [ch|] eqn:E; [|eauto].
    destruct (step l ch) as [l'|e] eqn:Hstep; [|eauto].
    apply IH. apply step_advances in Hstep. lia.
Qed.

(** More fuel does not change a result. *)
Lemma while_i_fuel (fuel fuel' : nat) (l : locals) (r : result locals) :
  while_i fuel l = Some r -> (fuel <= fuel')%nat -> while_i fuel' l = Some r.
Proof.
  revert fuel' l. induction fuel as [|fuel IH]; intros fuel' l H Hle.
  - simpl in H. destruct (input !! i l) eqn:E; [discriminate|].
    destruct fuel'; simpl; rewrite E; exact H.
  - destruct fuel' as [|fuel']; [lia|]. simpl in *.
    destruct (input !! i l) as [ch|]; [|exact H].
    destruct (step l ch) as [l'|e]; [|exact H].
    apply IH; [exact H|lia].
Qed.

(** When the loop ends normally the whole input has been read. *)
Lemma while_i_reads_all (fuel : nat) (l l' : locals) :
  while_i fuel l = Some (Ok l') -> (i l <= length input)%nat ->
  i l' = length input \/ (l' = l /\ (length input <= i l)%nat).
Proof.
  revert l. induction fuel as [|fuel IH]; intros l H Hle; simpl in H.
  - destruct (input !! i l) eqn:E; [discriminate|]. inversion H; subst.
    apply lookup_ge_None in E. right. auto.
  - destruct (input !! i l) as [ch|] eqn:E.
    + destruct (step l ch) as [l1|e] eqn:Hstep; [|discriminate].
      pose proof (lookup_lt_Some _ _ _ E) as Hlt.
      pose proof (step_in_bounds _ _ _ Hstep Hlt) as Hb.
      destruct (IH l1 H Hb) as [?|[-> ?]]; [left; assumption|left; lia].
    + inversion H; subst. apply lookup_ge_None in E. right. auto.
Qed.

End Loop.

(** [parseCSV] always returns or throws. *)
Lemma parseCSV_total (input : list Z) (opts : Opts) :
  exists r, parseCSV input opts = Some r.
Proof.
  unfold parseCSV, parse.
  match goal with |- context [CSV.while_i ?s ?lf ?cr input (length input) initial] =>
    destruct (while_i_terminates s lf cr input (length input) initial) as [r ->]
  end; [simpl; lia|].
  destruct r; eauto.
Qed.

Lemma parseCSV_options (input : list Z) (strict allowBareLF allowBareCR : bool) :
  parseCSV input (options strict allowBareLF allowBareCR)
  = parse strict allowBareLF allowBareCR input.
Proof. destruct strict, allowBareLF, allowBareCR; reflexivity. Qed.

(** The lookahead is the next code unit, when there is one. *)
Lemma next_lookup (input : list Z) (k : nat) :
  (if (k + 1 <? length input)%nat then input !! (k + 1)%nat else None)
  = input !! (k + 1)%nat.
Proof.
  destruct (Nat.ltb_spec (k + 1) (length input)); [reflexivity|].
  symmetry. apply lookup_ge_None. assumption.
Qed.

(** ** Parses of concrete inputs *)

Example quoted_comma :
  parseCSV [DQ; 97; COMMA; 98; DQ] (options true false false)
  = Some (Ok [[[97; COMMA; 98]]]).
Proof. reflexivity. Qed.

Example escaped_quote :
  parseCSV [DQ; 97; DQ; DQ; 98; DQ] (options true false false)
  = Some (Ok [[[97; DQ; 98]]]).
Proof. reflexivity. Qed.

Example empty_field_kept :
  parseCSV [97; COMMA; COMMA; 98] (options true false false)
  = Some (Ok [[[97]; []; [98]]]).
Proof. reflexivity. Qed.

Example crlf_in_quotes :
  parseCSV [DQ; 97; CR; LF; 98; DQ; CR; LF; 99] (options true false false)
  = Some (Ok [[[97; CR; LF; 98]]; [[99]]]).
Proof. reflexivity. Qed.

Example defaults_are_strict :
  parseCSV [97; DQ]
    {| opt_strict := None; opt_allowBareLF := None; opt_allowBareCR := None |}
  = Some (Throw QuoteInsideUnquotedField).
Proof. reflexivity. Qed.

(** ** Lenient mode *)

Lemma step_lenient (lf cr : bool) (input : list Z) (l : locals) (ch : Z) :
  exists l', step false lf cr input l ch = Ok l'.
Proof.
  unfold step. rewrite !andb_false_r.
  destruct (state l); cbn [andb]; split_ifs; eauto.
Qed.

Lemma while_i_lenient (lf cr : bool) (input : list Z) (fuel : nat) (l : locals)
    (r : result locals) :
  while_i false lf cr input fuel l = Some r -> exists l', r = Ok l'.
Proof.
  revert l. induction fuel as [|fuel IH]; intros l H; simpl in H.
  - destruct (input !! i l); [discriminate|]. inversion H. eauto.
  - destruct (input !! i l) as [ch|]; [|inversion H; eauto].
    destruct (step_lenient lf cr input l ch) as [l' E]. rewrite E in H.
    eapply IH. exact H.
Qed.

Lemma at_eof_lenient (l : locals) : exists table, at_eof false l = Ok table.
Proof. unfold at_eof. destruct (state l); split_ifs; eauto. Qed.

(** C8.  With [strict: false], whatever the input and the two allow
    flags (set or not), [parseCSV] throws none of its errors: it returns
    a table. *)
Theorem lenient_never_raises (input : list Z) (lf cr : option bool) :
  exists table,
    parseCSV input {| opt_strict := Some false; opt_allowBareLF := lf;
                      opt_allowBareCR := cr |}
    = Some (Ok table).
Proof.
  unfold parseCSV, parse. cbn [opt_strict opt_allowBareLF opt_allowBareCR].
  replace (negb (bool_decide (Some false = Some false))) with false by reflexivity.
  set (allowLF := bool_decide (lf = Some true)).
  set (allowCR := bool_decide (cr = Some true)).
  destruct (while_i_terminates false allowLF allowCR input (length input) initial)
    as [r Hr]; [simpl; lia|].
  rewrite Hr. destruct (while_i_lenient _ _ _ _ _ _ Hr) as [l ->].
  destruct (at_eof_lenient l) as [table ->]. eauto.
Qed.

(** ** Quotes *)

Lemma step_not_unexpected_quote (strict lf cr : bool) (input : list Z)
    (l : locals) (ch : Z) :
  step strict lf cr input l ch <> Throw UnexpectedQuoteInUnquotedField.
Proof.
  unfold step. destruct (state l); destruct (ch =? DQ); simpl;
    split_ifs; discriminate.
Qed.

Lemma while_i_not_unexpected_quote (strict lf cr : bool) (input : list Z)
    (fuel : nat) (l : locals) :
  while_i strict lf cr input fuel l <> Some (Throw UnexpectedQuoteInUnquotedField).
Proof.
  revert l. induction fuel as [|fuel IH]; intros l; simpl.
  - destruct (input !! i l); discriminate.
  - destruct (input !! i l) as [ch|]; [|discriminate].
    destruct (step strict lf cr input l ch) as [l'|e] eqn:E; [apply IH|].
    intros H. inversion H; subst. exact (step_not_unexpected_quote _ _ _ _ _ _ E).
Qed.

(** C7, as the code has it.  A quote read where a field starts opens a
    quoted field, in strict mode as in lenient mode: the pass moves to
    [IN_QUOTED] and throws nothing; and no input and no options make
    [parseCSV] throw [UnexpectedQuoteInUnquotedField]. *)
Theorem quote_at_field_start_opens_quoted_field :
  (forall strict lf cr input rs r f k,
      step strict lf cr input
        {| rows := rs; row := r; field := f; state := START_FIELD; i := k |} DQ
      = Ok {| rows := rs; row := r; field := f; state := IN_QUOTED;
              i := (k + 1)%nat |}) /\
  (forall input opts,
      parseCSV input opts <> Some (Throw UnexpectedQuoteInUnquotedField)).
Proof.
  split; [reflexivity|].
  intros input opts. unfold parseCSV, parse.
  match goal with |- context [CSV.while_i ?s ?lf ?cr input ?n initial] =>
    pose proof (while_i_not_unexpected_quote s lf cr input n initial) as Hw;
    destruct (CSV.while_i s lf cr input n initial) as [[l|e]|] eqn:E
  end; [|congruence|discriminate].
  unfold at_eof. destruct (state l); split_ifs; discriminate.
Qed.

(** C7, as stated, fails: in strict mode the input ["a"] (quote, a,
    quote) has a quote at the first position of its field and parses to
    one row with the one field [a]. *)
Lemma quote_at_field_start_no_error :
  parseCSV [DQ; 97; DQ] (options true false false) = Some (Ok [[[97]]]).
Proof. reflexivity. Qed.

(** ** Bare newlines *)

(** C3, as stated, fails: on [a LF b], strict and without [allowBareLF],
    the error thrown is the one for an illegal character in an unquoted
    field, not the bare-newline one. *)
Lemma bare_lf_in_field_error_kind :
  parseCSV [97; LF; 98] (options true false false)
  = Some (Throw IllegalCharacterInUnquotedField) /\
  IllegalCharacterInUnquotedField <> BareNewlineNotAllowed /\
  message IllegalCharacterInUnquotedField <> message BareNewlineNotAllowed.
Proof. split; [reflexivity|]. split; discriminate. Qed.

(** C3, as the code has it.  [a LF b] under strict without [allowBareLF]
    throws "Illegal character in unquoted field"; with [allowBareLF] it
    gives the two one-field rows [a] and [b]. *)
Theorem bare_lf_between_fields :
  parseCSV [97; LF; 98] (options true false false)
  = Some (Throw IllegalCharacterInUnquotedField) /\
  message IllegalCharacterInUnquotedField
  = "Illegal character in unquoted field"%string /\
  parseCSV [97; LF; 98] (options true true false)
  = Some (Ok [[[97]]; [[98]]]).
Proof. repeat split. Qed.

(** C10.  The input of an opening quote and a closing quote and nothing
    else gives the empty table, whatever the options: the loop ends in
    [AFTER_QUOTE] with an empty field and an empty row, and the switch
    after the loop then adds nothing. *)
Theorem empty_quoted_field_alone (opts : Opts) :
  parseCSV [DQ; DQ] opts = Some (Ok []) /\
  (forall strict lf cr,
      while_i strict lf cr [DQ; DQ] 2 initial
      = Some (Ok {| rows := []; row := []; field := []; state := AFTER_QUOTE;
                    i := 2 |})).
Proof.
  split; [|reflexivity]. unfold parseCSV.
  destruct (negb _), (bool_decide (opt_allowBareLF opts = _)),
    (bool_decide (opt_allowBareCR opts = _)); reflexivity.
Qed.

(** C2, where the code departs from it: in lenient mode with both allow
    flags off, the bare LF of [a LF b] is read in [IN_FIELD] and kept as
    data: the table has one row with the one field [a LF b]; the same
    holds after a closing quote (["a" LF b]), where the LF is read in
    [AFTER_QUOTE].  Only [START_FIELD] has the lenient branch that ends the
    record. *)
Lemma lenient_bare_lf_kept_in_field :
  parseCSV [97; LF; 98] (options false false false)
  = Some (Ok [[[97; LF; 98]]]) /\
  parseCSV [DQ; 97; DQ; LF; 98] (options false false false)
  = Some (Ok [[[97; LF; 98]]]) /\
  step false false false [97; LF; 98]
    {| rows := []; row := []; field := [97]; state := IN_FIELD; i := 1 |} LF
  = Ok {| rows := []; row := []; field := [97; LF]; state := IN_FIELD; i := 2 |}.
Proof. repeat split. Qed.

(** What each state does, in lenient mode, with a CR or LF that is not
    part of a CRLF pair: [START_FIELD] ends the record whatever the allow
    flags; [IN_FIELD] and [AFTER_QUOTE] end the record exactly when its
    own allow flag is on, and otherwise append it to the field (from
    [AFTER_QUOTE] the parser then goes on in [IN_FIELD]); inside quotes it
    is data. *)
Theorem lenient_bare_newline (lf cr : bool) (input : list Z) (l : locals) (ch : Z) :
  input !! i l = Some ch ->
  ch = LF \/ (ch = CR /\ input !! (i l + 1)%nat <> Some LF) ->
  step false lf cr input l ch
  = Ok (match state l with
        | START_FIELD => advance 1 (endRecord l)
        | IN_FIELD =>
            if (if ch =? LF then lf else cr)
            then advance 1 (set_state START_FIELD (endRecord l))
            else advance 1 (append ch l)
        | AFTER_QUOTE =>
            if (if ch =? LF then lf else cr)
            then advance 1 (set_state START_FIELD (endRecord l))
            else advance 1 (append ch (set_state IN_FIELD l))
        | IN_QUOTED => advance 1 (append ch l)
        end).
Proof.
  intros _ Hbare. unfold step. rewrite next_lookup, !andb_false_r.
  destruct Hbare as [->|[-> Hnext]].
  - destruct (state l), lf; reflexivity.
  - assert (E : is_char (input !! (i l + 1)%nat) LF = false).
    { destruct (input !! (i l + 1)%nat) as [x|]; [|reflexivity]. simpl.
      destruct (Z.eqb_spec x LF); [subst; congruence|reflexivity]. }
    rewrite E. destruct (state l), cr; reflexivity.
Qed.

Lemma lenient_bare_newline_witness :
  step false false false [97; LF; 98]
    {| rows := []; row := []; field := [97]; state := IN_FIELD; i := 1 |} LF
  = Ok {| rows := []; row := []; field := [97; LF]; state := IN_FIELD; i := 2 |} /\
  step false false false [CR; 98]
    {| rows := []; row := []; field := []; state := START_FIELD; i := 0 |} CR
  = Ok {| rows := [[[]]]; row := []; field := []; state := START_FIELD; i := 1 |}.
Proof.
  split.
  - apply (lenient_bare_newline false false [97; LF; 98]
             {| rows := []; row := []; field := [97]; state := IN_FIELD; i := 1 |} LF).
    + reflexivity.
    + left. reflexivity.
  - apply (lenient_bare_newline false false [CR; 98]
             {| rows := []; row := []; field := []; state := START_FIELD; i := 0 |} CR).
    + reflexivity.
    + right. split; [reflexivity|discriminate].
Defined.

(** The same bare LF, same mode, same flags: it ends the record where a
    field starts and is kept where a field has begun. *)
Example lenient_bare_lf_by_position :
  parseCSV [LF; 98] (options false false false) = Some (Ok [[[]]; [[98]]]) /\
  parseCSV [97; COMMA; LF; 98] (options false false false)
  = Some (Ok [[[97]; []]; [[98]]]) /\
  parseCSV [97; COMMA; 98; LF; 99; COMMA; 100; LF] (options false false false)
  = Some (Ok [[[97]; [98; LF; 99]; [100; LF]]]).
Proof. repeat split. Qed.

(** ** End of input *)

(** C6.  When the loop ends in [IN_QUOTED] (a quote was opened and never
    closed), strict mode throws [UnterminatedQuotedField], and lenient
    mode returns the rows so far followed by the current row with the
    accumulated field as its last field. *)
Theorem unterminated_quoted_field (strict lf cr : bool) (input : list Z) (l : locals) :
  while_i strict lf cr input (length input) initial = Some (Ok l) ->
  state l = IN_QUOTED ->
  parseCSV input (options strict lf cr)
  = Some (if strict then Throw UnterminatedQuotedField
          else Ok (rows l ++ [row l ++ [field l]])).
Proof.
  intros Hloop Hstate. rewrite parseCSV_options. unfold parse.
  rewrite Hloop. unfold at_eof. rewrite Hstate. destruct strict; reflexivity.
Qed.

Lemma unterminated_quoted_field_witness :
  parseCSV [97; COMMA; DQ; 98; 99] (options true false false)
  = Some (Throw UnterminatedQuotedField) /\
  parseCSV [97; COMMA; DQ; 98; 99] (options false false false)
  = Some (Ok [[[97]; [98; 99]]]).
Proof.
  split.
  - apply (unterminated_quoted_field true false false [97; COMMA; DQ; 98; 99]
             {| rows := []; row := [[97]]; field := [98; 99]; state := IN_QUOTED;
                i := 5 |}); reflexivity.
  - apply (unterminated_quoted_field false false false [97; COMMA; DQ; 98; 99]
             {| rows := []; row := [[97]]; field := [98; 99]; state := IN_QUOTED;
                i := 5 |}); reflexivity.
Defined.

Section Trailing.
Variables strict allowBareLF allowBareCR : bool.
Variable input : list Z.

Local Abbreviation ended := (input ++ [CR; LF]).

(** Inside [input], a pass does not see the record separator put after
    it. *)
Lemma step_before_trailing (l : locals) (ch : Z) :
  (i l < length input)%nat ->
  step strict allowBareLF allowBareCR ended l ch
  = step strict allowBareLF allowBareCR input l ch.
Proof.
  intros Hlt.
  assert (E : is_char (if (i l + 1 <? length ended)%nat
                       then ended !! (i l + 1)%nat else None) LF
              = is_char (if (i l + 1 <? length input)%nat
                         then input !! (i l + 1)%nat else None) LF).
  { rewrite !next_lookup.
    destruct (Nat.ltb_spec (i l + 1) (length input)) as [H|H].
    - rewrite lookup_app_l by exact H. reflexivity.
    - rewrite lookup_app_r by exact H.
      replace (i l + 1 - length input)%nat with O by lia.
      rewrite (proj2 (lookup_ge_None input (i l + 1)%nat) H). reflexivity. }
  unfold step. cbv zeta. rewrite E. reflexivity.
Qed.

Lemma while_i_before_trailing (fuel : nat) (l l' : locals) :
  while_i strict allowBareLF allowBareCR input fuel l = Some (Ok l') ->
  forall (k : nat) (r : result locals),
    while_i strict allowBareLF allowBareCR ended k l' = Some r ->
    while_i strict allowBareLF allowBareCR ended (fuel + k) l = Some r.
Proof.
  revert l. induction fuel as [|fuel IH]; intros l H k r Hr; simpl in H.
  - destruct (input !! i l); [discriminate|]. inversion H; subst. exact Hr.
  - destruct (input !! i l) as [ch|] eqn:E.
    + destruct (step strict allowBareLF allowBareCR input l ch) as [l1|e] eqn:Hstep;
        [|discriminate].
      pose proof (lookup_lt_Some _ _ _ E) as Hlt.
      cbn [Nat.add while_i].
      rewrite (lookup_app_l_Some _ _ _ _ E), step_before_trailing, Hstep by exact Hlt.
      apply IH; assumption.
    + inversion H; subst.
      eapply while_i_fuel; [exact Hr|lia].
Qed.

(** The pass that reads the trailing CRLF ends the record. *)
Lemma step_at_trailing (l : locals) :
  i l = length input -> state l <> IN_QUOTED ->
  step strict allowBareLF allowBareCR ended l CR
  = Ok (advance 2 (set_state START_FIELD (endRecord l))).
Proof.
  intros Hi Hstate.
  assert (E : is_char (if (i l + 1 <? length ended)%nat
                       then ended !! (i l + 1)%nat else None) LF = true).
  { rewrite next_lookup, lookup_app_r by lia.
    replace (i l + 1 - length input)%nat with 1%nat by lia. reflexivity. }
  unfold step. cbv zeta. rewrite E.
  destruct l as [rs r f st k]. simpl in *.
  destruct st; try reflexivity. congruence.
Qed.

Lemma parse_trailing_crlf (l : locals) :
  while_i strict allowBareLF allowBareCR input (length input) initial = Some (Ok l) ->
  state l <> IN_QUOTED ->
  parse strict allowBareLF allowBareCR ended
  = Some (Ok (rows l ++ [row l ++ [field l]])).
Proof.
  intros Hloop Hstate.
  assert (Hi : i l = length input).
  { destruct (while_i_reads_all _ _ _ _ _ _ _ Hloop) as [H|[-> H]];
      [simpl; lia|exact H|simpl in *; lia]. }
  unfold parse.
  replace (length ended) with (length input + 2)%nat
    by (rewrite length_app; reflexivity).
  assert (Hw : while_i strict allowBareLF allowBareCR ended (length input + 2) initial
               = Some (Ok (advance 2 (set_state START_FIELD (endRecord l))))).
  { apply (while_i_before_trailing _ _ _ Hloop 2).
    cbn [while_i].
    rewrite lookup_app_r, Hi, Nat.sub_diag by lia. cbn [lookup list_lookup].
    rewrite step_at_trailing by assumption.
    cbn [advance set_state endRecord endField i].
    rewrite (proj2 (lookup_ge_None ended (i l + 2)%nat));
      [reflexivity|rewrite length_app; simpl; lia]. }
  rewrite Hw. reflexivity.
Qed.

End Trailing.

(** C5.  When the loop ends in [START_FIELD], [IN_FIELD] or [AFTER_QUOTE],
    [parseCSV] appends a last row (the current row with the current field
    as its last field) exactly when something is pending: the field is not
    empty or the row already has a field.  So an input that stops without
    a record separator still gets its last row, the same input ended by
    CRLF gets that row and no empty row after it, and whichever pass ends
    a record, nothing is added when the input stops right after it. *)
Theorem end_of_input_flush (strict lf cr : bool) (input : list Z) (l : locals) :
  while_i strict lf cr input (length input) initial = Some (Ok l) ->
  state l <> IN_QUOTED ->
  (field l <> [] \/ row l <> [] ->
   parseCSV input (options strict lf cr)
   = Some (Ok (rows l ++ [row l ++ [field l]]))) /\
  (field l = [] /\ row l = [] ->
   parseCSV input (options strict lf cr) = Some (Ok (rows l))) /\
  parseCSV (input ++ [CR; LF]) (options strict lf cr)
  = Some (Ok (rows l ++ [row l ++ [field l]])) /\
  (forall l0 k,
      at_eof strict (advance k (set_state START_FIELD (endRecord l0)))
      = Ok (rows l0 ++ [row l0 ++ [field l0]])).
Proof.
  intros Hloop Hstate. rewrite !parseCSV_options.
  split; [|split; [|split; [|reflexivity]]].
  - intros Hpending. unfold parse. rewrite Hloop. unfold at_eof.
    assert (Hc : negb (bool_decide (field l = [])) || (0 <? length (row l))%nat
                 = true).
    { destruct Hpending as [H|H].
      - rewrite bool_decide_eq_false_2 by exact H. reflexivity.
      - destruct (row l); [congruence|]. apply orb_true_r. }
    rewrite Hc. destruct (state l); try reflexivity. congruence.
  - intros [Hf Hr]. unfold parse. rewrite Hloop. unfold at_eof.
    rewrite Hf, Hr. destruct (state l); try congruence; reflexivity.
  - apply parse_trailing_crlf; assumption.
Qed.

Lemma end_of_input_flush_witness :
  (parseCSV [97; COMMA; 98] (options true false false)
   = Some (Ok [[[97]; [98]]]) /\
   parseCSV [97; COMMA; 98; CR; LF] (options true false false)
   = Some (Ok [[[97]; [98]]])) /\
  parseCSV [97; CR; LF] (options true false false) = Some (Ok [[[97]]]).
Proof.
  split.
  - pose proof (end_of_input_flush true false false [97; COMMA; 98]
                  {| rows := []; row := [[97]]; field := [98]; state := IN_FIELD;
                     i := 3 |} eq_refl) as H.
    destruct H as (H1 & _ & H3 & _); [discriminate|].
    split; [apply H1; left; discriminate|exact H3].
  - pose proof (end_of_input_flush true false false [97; CR; LF]
                  {| rows := [[[97]]]; row := []; field := [];
                     state := START_FIELD; i := 3 |} eq_refl) as H.
    destruct H as (_ & H2 & _ & _); [discriminate|].
    apply H2. split; reflexivity.
Defined.

(** * Further properties of the decoder *)

Import Source.

(** ** The chunk source *)

Example small_windows :
  while_offset 3 8 [1; 2; 3; 4; 5; 6; 7; 8] 0
  = Some [[1; 2; 3]; [4; 5; 6]; [7; 8]].
Proof. reflexivity. Qed.

Lemma while_offset_at_end (want : Z) (fuel : nat) (file : list Z) (offset : Z) :
  JS.len file <= offset -> while_offset want fuel file offset = Some [].
Proof.
  intros H. destruct fuel; simpl;
    destruct (Z.ltb_spec offset (JS.len file)); try lia; reflexivity.
Qed.

(** The rounds cut what is left of the file into windows of [want] bytes,
    the last one possibly shorter. *)
Lemma while_offset_windows (want : Z) (file : list Z) (fuel : nat) (offset : Z) :
  0 < want -> 0 <= offset <= JS.len file ->
  JS.len file - offset <= Z.of_nat fuel ->
  exists chunks,
    while_offset want fuel file offset = Some chunks /\
    concat chunks = drop (Z.to_nat offset) file /\
    Forall (fun c => 0 < JS.len c <= want) chunks /\
    (forall k c, chunks !! k = Some c -> (S k < length chunks)%nat ->
                 JS.len c = want) /\
    Z.of_nat (length chunks) = (JS.len file - offset + want - 1) / want.
Proof.
  intros Hwant. revert offset.
  induction fuel as [|fuel IH]; intros offset Hoff Hfuel.
  - rewrite while_offset_at_end by lia. exists []. simpl.
    split; [reflexivity|]. split; [symmetry; apply drop_ge; unfold JS.len in *; lia|].
    split; [constructor|]. split; [intros k c H; discriminate|].
    symmetry. apply Z.div_small. lia.
  - destruct (Z.eq_dec offset (JS.len file)) as [Heq|Hne].
    { rewrite while_offset_at_end by lia. exists []. simpl.
      split; [reflexivity|].
      split; [symmetry; apply drop_ge; unfold JS.len in *; lia|].
      split; [constructor|]. split; [intros k c H; discriminate|].
      symmetry. apply Z.div_small. lia. }
    simpl. destruct (Z.ltb_spec offset (JS.len file)) as [_|]; [|lia].
    set (end_ := Z.min (offset + want) (JS.len file)).
    assert (Hend : offset < end_ <= JS.len file) by (unfold end_; lia).
    destruct (IH end_) as (chunks & -> & Hcat & Hsz & Hfull & Hcount); [lia|lia|].
    eexists. split; [reflexivity|].
    rewrite slice_within by lia.
    assert (Hlen : JS.len (take (Z.to_nat (end_ - offset)) (drop (Z.to_nat offset) file))
                   = end_ - offset).
    { unfold JS.len in *. rewrite length_take, length_drop. lia. }
    split; [|split; [|split]].
    + simpl. rewrite Hcat.
      replace (Z.to_nat end_) with (Z.to_nat offset + Z.to_nat (end_ - offset))%nat by lia.
      rewrite <- drop_drop. apply take_drop.
    + constructor; [|exact Hsz]. rewrite Hlen. unfold end_. lia.
    + intros [|k] c Hk Hlast; simpl in *.
      * inversion Hk; subst c. rewrite Hlen.
        destruct (Z.eq_dec end_ (JS.len file)) as [E|E]; [|unfold end_ in *; lia].
        exfalso. rewrite E in Hcount.
        rewrite Z.div_small in Hcount by lia. lia.
      * apply (Hfull k c Hk). lia.
    + cbn [length]. rewrite Nat2Z.inj_succ, Hcount.
      destruct (Z.eq_dec end_ (offset + want)) as [E|E].
      * rewrite E.
        replace (JS.len file - offset + want - 1)
          with (JS.len file - (offset + want) + want - 1 + 1 * want) by lia.
        rewrite Z.div_add by lia. lia.
      * assert (E' : end_ = JS.len file) by (unfold end_ in *; lia).
        rewrite E'. rewrite Z.div_small by lia.
        replace (JS.len file - offset + want - 1)
          with (JS.len file - offset - 1 + 1 * want) by lia.
        rewrite Z.div_add by lia. rewrite Z.div_small by (unfold end_ in *; lia).
        lia.
Qed.

Lemma chunk_source_partition_aux (file : list Z) :
  exists chunks, iterateChunksFromFile file = Some chunks /\ concat chunks = file.
Proof.
  assert (Hpos : 0 < CHUNK_SIZE) by reflexivity.
  unfold iterateChunksFromFile.
  destruct (while_offset_windows CHUNK_SIZE file (length file) 0 Hpos)
    as (chunks & Hr & Hcat & _).
  { pose proof (len_nonneg file). lia. }
  { unfold JS.len. lia. }
  exists chunks. split; [exact Hr|exact Hcat].
Qed.

(** X1.  [iterateChunksFromFile] always finishes, and its chunks are the
    file cut in order with no gap and no overlap: none is empty, none
    exceeds [CHUNK_SIZE], all but the last are exactly [CHUNK_SIZE] long,
    and there are ceil(size / CHUNK_SIZE) of them (none for an empty
    file). *)
Theorem chunk_source_partition (file : list Z) :
  exists chunks,
    iterateChunksFromFile file = Some chunks /\
    concat chunks = file /\
    Forall (fun c => 0 < JS.len c <= CHUNK_SIZE) chunks /\
    (forall k c, chunks !! k = Some c -> (S k < length chunks)%nat ->
                 JS.len c = CHUNK_SIZE) /\
    Z.of_nat (length chunks) = (JS.len file + CHUNK_SIZE - 1) / CHUNK_SIZE.
Proof.
  assert (Hpos : 0 < CHUNK_SIZE) by reflexivity.
  unfold iterateChunksFromFile.
  destruct (while_offset_windows CHUNK_SIZE file (length file) 0 Hpos)
    as (chunks & Hr & Hcat & Hrest).
  { pose proof (len_nonneg file). lia. }
  { unfold JS.len. lia. }
  exists chunks. split; [exact Hr|]. split; [exact Hcat|].
  rewrite Z.sub_0_r in Hrest. exact Hrest.
Qed.

(** ** The decoder on arbitrary bytes *)

Lemma run_warned (chunks : list (list Z)) (r : run) :
  iterateCharactersFromFile chunks = Some r ->
  warned r = (0 <? JS.len (leftover r)).
Proof.
  unfold iterateCharactersFromFile.
  destruct (for_chunks chunks []) as [[cs f]|]; [|discriminate].
  intros H. inversion H. reflexivity.
Qed.

Lemma carried_short (f : list Z) : carried f -> JS.len f <= 3.
Proof.
  intros [->|[_ H]]; [unfold JS.len; simpl; lia|].
  pose proof (charBytes_range (head f)). lia.
Qed.

(** X2.  Whatever the bytes, well formed or not, and however they are cut
    into chunks (empty chunks included), the generator finishes, and
    nothing is lost, repeated or reordered: the yielded characters followed
    by the fragment left at the end are the bytes read.  Each character
    has from 1 to 4 bytes, as many as [charBytes] of its first byte; at
    most 3 bytes are left; the diagnostic is logged exactly when some
    are. *)
Theorem decoder_conserves_bytes (chunks : list (list Z)) :
  exists r,
    iterateCharactersFromFile chunks = Some r /\
    concat (characters r) ++ leftover r = concat chunks /\
    Forall (fun c => 1 <= JS.len c <= 4 /\ JS.len c = charBytes (JS.index c 0))
           (characters r) /\
    JS.len (leftover r) <= 3 /\
    (warned r = true <-> leftover r <> []).
Proof.
  destruct (decoder_framing chunks) as (r & Hr & Hcs & Hf & Hd).
  exists r. split; [exact Hr|]. split; [symmetry; exact Hd|].
  split; [|split; [apply carried_short; exact Hf|]].
  - eapply Forall_impl; [|exact Hcs]. intros c [Hne Hlen].
    rewrite index_zero. pose proof (charBytes_range (head c)). lia.
  - rewrite (run_warned _ _ Hr). rewrite <- len_nil_iff.
    pose proof (len_nonneg (leftover r)).
    destruct (Z.ltb_spec 0 (JS.len (leftover r))); split; intros; try lia;
      try reflexivity; discriminate.
Qed.

(** X3.  Two chunk sequences that carry the same bytes give the same
    run: the same characters, the same leftover, the same diagnostic.
    No condition on the bytes or on the chunk sizes. *)
Theorem chunking_irrelevant (chunks chunks' : list (list Z)) :
  concat chunks = concat chunks' ->
  exists r,
    iterateCharactersFromFile chunks = Some r /\
    iterateCharactersFromFile chunks' = Some r.
Proof.
  intros E.
  destruct (decoder_framing chunks) as ([cs f w] & Hr & Hcs & Hf & Hd).
  destruct (decoder_framing chunks') as ([cs' f' w'] & Hr' & Hcs' & Hf' & Hd').
  pose proof (run_warned _ _ Hr) as Hw. pose proof (run_warned _ _ Hr') as Hw'.
  simpl in *.
  destruct (framing_unique cs cs' f f') as [-> ->]; try assumption; [congruence|].
  eexists. split; [exact Hr|]. rewrite Hr', Hw, Hw'. reflexivity.
Qed.

Lemma chunking_irrelevant_witness :
  exists r,
    iterateCharactersFromFile [[255; 1]; []; [2; 3; 200]] = Some r /\
    iterateCharactersFromFile [[255]; [1; 2; 3]; [200]] = Some r.
Proof. apply (chunking_irrelevant [[255; 1]; []; [2; 3; 200]]). reflexivity. Defined.

(** X4.  What has been yielded is never taken back: the characters of a
    run over some chunks are the first characters of any run over those
    chunks followed by more. *)
Theorem yielded_characters_stay (before after : list (list Z)) :
  exists r r' more,
    iterateCharactersFromFile before = Some r /\
    iterateCharactersFromFile (before ++ after) = Some r' /\
    characters r' = characters r ++ more.
Proof.
  destruct (for_chunks_framing before []) as (cs & f & Hb & _ & Hf & _);
    [left; reflexivity|].
  destruct (for_chunks_framing after f Hf) as (cs' & f' & Ha & _).
  unfold iterateCharactersFromFile. rewrite for_chunks_app, Hb, Ha.
  eexists _, _, cs'. split; [reflexivity|]. split; reflexivity.
Qed.

(** X5.  The decoder undoes concatenation: if the bytes read are whole
    characters (each as long as [charBytes] of its first byte, whether
    valid UTF-8 or not) followed by a tail that is empty or shorter than
    its first byte announces, the run yields exactly those characters and
    leaves exactly that tail. *)
Theorem decoder_recovers_framing (cs : list (list Z)) (tail : list Z)
    (chunks : list (list Z)) :
  Forall whole cs -> carried tail ->
  concat chunks = concat cs ++ tail ->
  iterateCharactersFromFile chunks
  = Some {| characters := cs; leftover := tail; warned := 0 <? JS.len tail |}.
Proof.
  intros Hcs Htail Hcat.
  destruct (decoder_framing chunks) as ([cs' f' w'] & Hr & Hcs' & Hf' & Hd).
  pose proof (run_warned _ _ Hr) as Hw. simpl in *.
  destruct (framing_unique cs cs' tail f') as [<- <-]; try assumption.
  { congruence. }
  rewrite Hr, Hw. reflexivity.
Qed.

Lemma decoder_recovers_framing_witness :
  iterateCharactersFromFile [[255; 0]; [0; 0; 65; 224]; [128]]
  = Some {| characters := [[255; 0; 0; 0]; [65]]; leftover := [224; 128];
            warned := true |}.
Proof.
  apply (decoder_recovers_framing [[255; 0; 0; 0]; [65]] [224; 128]).
  - repeat constructor; discriminate.
  - right. split; reflexivity.
  - reflexivity.
Defined.

(** X6.  Bytes below 0xC0 are never grouped: a stream of such bytes
    (ASCII, but also stray continuation bytes, which are not checked) is
    yielded one byte per character, with nothing left. *)
Theorem single_byte_stream (chunks : list (list Z)) :
  Forall (fun b => b < 192) (concat chunks) ->
  iterateCharactersFromFile chunks
  = Some {| characters := map (fun b => [b]) (concat chunks); leftover := [];
            warned := false |}.
Proof.
  intros Hlow.
  apply (decoder_recovers_framing (map (fun b => [b]) (concat chunks)) []).
  - induction Hlow as [|b bs Hb _ IH]; simpl; constructor; [|exact IH].
    split; [discriminate|]. unfold JS.len. simpl.
    repeat (match goal with |- context [?x <=? ?y] => destruct (Z.leb_spec x y) end);
      lia.
  - left. reflexivity.
  - rewrite app_nil_r. generalize (concat chunks) as bs.
    induction bs as [|b bs IH]; simpl; [reflexivity|]. f_equal. exact IH.
Qed.

Lemma single_byte_stream_witness :
  iterateCharactersFromFile [[104; 105]; [128; 10]]
  = Some {| characters := [[104]; [105]; [128]; [10]]; leftover := [];
            warned := false |}.
Proof.
  apply (single_byte_stream [[104; 105]; [128; 10]]).
  repeat constructor.
Defined.

(** ** The generator as it is called *)

(** X7.  [iterateCharactersFromFile(file)] finishes on every file, and
    the window of [iterateChunksFromFile] does not show: the run is the
    run over the whole file as one chunk, and its characters followed by
    its leftover are the file. *)
Theorem characters_of_file (file : list Z) :
  exists r,
    charactersOfFile file = Some r /\
    iterateCharactersFromFile [file] = Some r /\
    concat (characters r) ++ leftover r = file.
Proof.
  unfold charactersOfFile.
  destruct (chunk_source_partition_aux file) as (chunks & -> & Hcat).
  destruct (decoder_chunking_irrelevant chunks [file]) as (r & Hr & Hr').
  { simpl. rewrite app_nil_r. exact Hcat. }
  exists r. split; [exact Hr|]. split; [exact Hr'|].
  destruct (decoder_framing chunks) as (r0 & Hr0 & _ & _ & Hd).
  rewrite Hr in Hr0. inversion Hr0; subst r0. rewrite <- Hd. exact Hcat.
Qed.

(** X8.  On a well-formed and complete UTF-8 file,
    [iterateCharactersFromFile(file)] yields the encodings of its scalar
    values, one character each, leaves nothing and logs nothing. *)
Theorem characters_of_well_formed_file (file : list Z) :
  well_formed file ->
  exists cs,
    Forall (fun c => scalar_encoding c = true) cs /\ concat cs = file /\
    charactersOfFile file
    = Some {| characters := cs; leftover := []; warned := false |}.
Proof.
  intros Hwf. unfold charactersOfFile.
  destruct (chunk_source_partition_aux file) as (chunks & -> & Hcat).
  apply decoder_well_formed; assumption.
Qed.

Lemma characters_of_well_formed_file_witness :
  exists cs,
    Forall (fun c => scalar_encoding c = true) cs /\
    concat cs = [72; 195; 169; 226; 130; 172] /\
    charactersOfFile [72; 195; 169; 226; 130; 172]
    = Some {| characters := cs; leftover := []; warned := false |}.
Proof.
  apply (characters_of_well_formed_file [72; 195; 169; 226; 130; 172]).
  exists [[72]; [195; 169]; [226; 130; 172]].
  split; [repeat constructor|reflexivity].
Defined.

(** * Further properties of the parser *)

(** X9.  The loop of [parseCSV] cannot hang or overrun: every pass that
    does not throw moves [i] forward by one or two code units and never
    past the end of the input, so for every input and all options
    [parseCSV] returns a table or throws. *)
Theorem parse_loop_progress :
  (forall strict lf cr input l ch l',
      input !! i l = Some ch ->
      step strict lf cr input l ch = Ok l' ->
      (i l < i l' <= i l + 2)%nat /\ (i l' <= length input)%nat) /\
  (forall input opts,
      exists r : result (list (list (list Z))), parseCSV input opts = Some r).
Proof.
  split.
  - intros strict lf cr input l ch l' Hch Hstep. split.
    + exact (step_advances _ _ _ _ _ _ _ Hstep).
    + apply (step_in_bounds _ _ _ _ _ _ _ Hstep).
      exact (lookup_lt_Some _ _ _ Hch).
  - intros input opts. unfold parseCSV, parse.
    match goal with |- context [CSV.while_i ?s ?lf ?cr input (length input) initial] =>
      destruct (while_i_terminates s lf cr input (length input) initial) as [r ->]
    end; [simpl; lia|].
    destruct r; eauto.
Qed.

(** ** Shape of the table *)

Lemma step_rows_nonempty (strict lf cr : bool) (input : list Z)
    (l l' : locals) (ch : Z) :
  step strict lf cr input l ch = Ok l' ->
  Forall (fun r => r <> []) (rows l) -> Forall (fun r => r <> []) (rows l').
Proof.
  assert (Hpush : forall (r : list (list Z)) (f : list Z), r ++ [f] <> []).
  { intros [|] f; discriminate. }
  unfold step. intros H Hinv. revert H.
  destruct (state l); split_ifs; intros H; inversion H; subst; simpl;
    try exact Hinv;
    (apply Forall_app; split; [exact Hinv|constructor; [apply Hpush|constructor]]).
Qed.

Lemma while_i_rows_nonempty (strict lf cr : bool) (input : list Z)
    (fuel : nat) (l l' : locals) :
  while_i strict lf cr input fuel l = Some (Ok l') ->
  Forall (fun r => r <> []) (rows l) -> Forall (fun r => r <> []) (rows l').
Proof.
  revert l. induction fuel as [|fuel IH]; intros l H Hinv; simpl in H.
  - destruct (input !! i l); [discriminate|]. inversion H; subst. exact Hinv.
  - destruct (input !! i l) as [ch|]; [|inversion H; subst; exact Hinv].
    destruct (step strict lf cr input l ch) as [l1|e] eqn:Hstep; [|discriminate].
    apply (IH l1 H). exact (step_rows_nonempty _ _ _ _ _ _ _ Hstep Hinv).
Qed.

(** X10.  Every row of a table [parseCSV] returns has at least one
    field: a row is only ever pushed right after a field was added to
    it. *)
Theorem rows_have_fields (input : list Z) (opts : Opts)
    (table : list (list (list Z))) :
  parseCSV input opts = Some (Ok table) ->
  Forall (fun r => r <> []) table.
Proof.
  unfold parseCSV, parse.
  match goal with |- context [CSV.while_i ?s ?lf ?cr input ?n initial] =>
    destruct (CSV.while_i s lf cr input n initial) as [[l|e]|] eqn:Hloop
  end; try discriminate.
  apply while_i_rows_nonempty in Hloop; [|constructor].
  assert (Hlast : Forall (fun r : list (list Z) => r <> [])
                    (rows l ++ [row l ++ [field l]])).
  { apply Forall_app. split; [exact Hloop|].
    constructor; [destruct (row l); discriminate|constructor]. }
  unfold at_eof.
  destruct (state l); split_ifs; intros H; inversion H; subst; simpl; assumption.
Qed.

Lemma rows_have_fields_witness :
  Forall (fun r : list (list Z) => r <> []) [[[]; []]; [[]]; [[98]]].
Proof.
  apply (rows_have_fields [COMMA; CR; LF; CR; LF; 98] (options true false false)).
  reflexivity.
Defined.

(** ** Options *)

(** A pass that strict mode with both flags off lets through does the
    same under every other setting. *)
Lemma step_default_ok (strict lf cr : bool) (input : list Z)
    (l l' : locals) (ch : Z) :
  step true false false input l ch = Ok l' ->
  step strict lf cr input l ch = Ok l'.
Proof.
  unfold step. cbv zeta.
  generalize (is_char (if (i l + 1 <? length input)%nat
                       then input !! (i l + 1)%nat else None) LF) as crlf.
  intros crlf.
  destruct (state l);
    (destruct (ch =? DQ); cbn [andb orb negb]; [try (intros H; exact H)|]);
    try discriminate;
    (destruct (ch =? COMMA); cbn [andb orb negb]; [try (intros H; exact H)|]);
    try discriminate;
    (destruct (ch =? CR), crlf; cbn [andb orb negb]; try (intros H; exact H));
    try discriminate;
    (destruct (ch =? LF); cbn [andb orb negb]; try (intros H; exact H));
    try discriminate;
    (destruct (isControl ch), (ch =? TAB); cbn [andb orb negb]; try discriminate);
    destruct strict; cbn [andb orb negb]; try discriminate; intros H; exact H.
Qed.

Lemma while_i_default_ok (strict lf cr : bool) (input : list Z)
    (fuel : nat) (l l' : locals) :
  while_i true false false input fuel l = Some (Ok l') ->
  while_i strict lf cr input fuel l = Some (Ok l').
Proof.
  revert l. induction fuel as [|fuel IH]; intros l H; simpl in *.
  - destruct (input !! i l); [discriminate|exact H].
  - destruct (input !! i l) as [ch|]; [|exact H].
    destruct (step true false false input l ch) as [l1|e] eqn:Hstep; [|discriminate].
    rewrite (step_default_ok strict lf cr _ _ _ _ Hstep). apply IH. exact H.
Qed.

(** X11.  An input that the default options accept (strict, no bare
    newline allowed) parses to the same table under every setting of
    [strict], [allowBareLF] and [allowBareCR]: the options only decide
    what happens to inputs the defaults reject. *)
Theorem default_parse_stable (input : list Z) (table : list (list (list Z)))
    (opts : Opts) :
  parseCSV input (options true false false) = Some (Ok table) ->
  parseCSV input opts = Some (Ok table).
Proof.
  rewrite parseCSV_options. unfold parseCSV, parse.
  destruct (while_i true false false input (length input) initial)
    as [[l|e]|] eqn:Hloop; try discriminate.
  intros H.
  match goal with |- context [CSV.while_i ?s ?lf ?cr input ?n initial] =>
    rewrite (while_i_default_ok s lf cr _ _ _ _ Hloop)
  end.
  revert H. unfold at_eof.
  destruct (state l); try (intros H; exact H). discriminate.
Qed.

Lemma default_parse_stable_witness :
  parseCSV [97; COMMA; DQ; 98; LF; DQ; CR; LF; 99]
    {| opt_strict := Some false; opt_allowBareLF := Some true;
       opt_allowBareCR := None |}
  = Some (Ok [[[97]; [98; LF]]; [[99]]]).
Proof.
  apply (default_parse_stable [97; COMMA; DQ; 98; LF; DQ; CR; LF; 99]).
  reflexivity.
Defined.

(** ** Reading back what was written *)

Import Writer.

Section ReadBack.
Variables strict allowBareLF allowBareCR : bool.
Variable input : list Z.

Local Abbreviation step := (step strict allowBareLF allowBareCR input).
Local Abbreviation while_i := (while_i strict allowBareLF allowBareCR input).
Local Abbreviation reaches := (reaches strict allowBareLF allowBareCR input).

Lemma reaches_refl (l : locals) : reaches l l.
Proof. intros fuel r H. eauto. Qed.

Lemma reaches_trans (l1 l2 l3 : locals) :
  reaches l1 l2 -> reaches l2 l3 -> reaches l1 l3.
Proof.
  intros H12 H23 fuel r H. destruct (H23 fuel r H) as [fuel' H'].
  exact (H12 fuel' r H').
Qed.

Lemma reaches_step (l l' : locals) (ch : Z) :
  input !! i l = Some ch -> step l ch = Ok l' -> reaches l l'.
Proof.
  intros Hch Hstep fuel r H. exists (S fuel). simpl.
  rewrite Hch, Hstep. exact H.
Qed.

(** The result does not depend on the fuel, once there is enough. *)
Lemma while_i_enough (fuel fuel' : nat) (l : locals) (r : result locals) :
  while_i fuel' l = Some r -> (length input - i l <= fuel)%nat ->
  while_i fuel l = Some r.
Proof.
  intros H Hfuel.
  destruct (while_i_terminates strict allowBareLF allowBareCR input fuel l Hfuel)
    as [r' Hr'].
  destruct (Nat.le_ge_cases fuel fuel') as [Hle|Hle].
  - pose proof (while_i_fuel _ _ _ _ _ _ _ _ Hr' Hle). congruence.
  - exact (while_i_fuel _ _ _ _ _ _ _ _ H Hle).
Qed.

(** What is left of the input at a position. *)
Lemma suffix_cons (k : nat) (x : Z) (s : list Z) :
  drop k input = x :: s ->
  input !! k = Some x /\ drop (k + 1) input = s /\ input !! (k + 1)%nat = head s.
Proof.
  intros H.
  assert (H1 : drop (k + 1) input = s).
  { rewrite <- drop_drop, H. reflexivity. }
  split; [|split; [exact H1|]].
  - rewrite <- (Nat.add_0_r k), <- lookup_drop, H. reflexivity.
  - rewrite <- (Nat.add_0_r (k + 1)), <- lookup_drop, H1. apply eq_sym, head_lookup.
Qed.

Lemma suffix_app (k : nat) (a b : list Z) :
  drop k input = a ++ b -> drop (k + length a) input = b.
Proof. intros H. rewrite <- drop_drop, H. apply drop_app_length. Qed.

(** *** Single passes *)

Lemma step_open_quote rs r f k :
  step {| rows := rs; row := r; field := f; state := START_FIELD; i := k |} DQ
  = Ok {| rows := rs; row := r; field := f; state := IN_QUOTED; i := (k + 1)%nat |}.
Proof. reflexivity. Qed.

Lemma step_in_quoted rs r f k ch :
  step {| rows := rs; row := r; field := f; state := IN_QUOTED; i := k |} ch
  = Ok (if ch =? DQ
        then {| rows := rs; row := r; field := f; state := AFTER_QUOTE;
                i := (k + 1)%nat |}
        else {| rows := rs; row := r; field := f ++ [ch]; state := IN_QUOTED;
                i := (k + 1)%nat |}).
Proof. unfold CSV.step. simpl. destruct (ch =? DQ); reflexivity. Qed.

Lemma step_second_quote rs r f k :
  step {| rows := rs; row := r; field := f; state := AFTER_QUOTE; i := k |} DQ
  = Ok {| rows := rs; row := r; field := f ++ [DQ]; state := IN_QUOTED;
          i := (k + 1)%nat |}.
Proof. reflexivity. Qed.

Lemma step_comma rs r f st k :
  st <> IN_QUOTED ->
  step {| rows := rs; row := r; field := f; state := st; i := k |} COMMA
  = Ok {| rows := rs; row := r ++ [f]; field := []; state := START_FIELD;
          i := (k + 1)%nat |}.
Proof. intros H. destruct st; try reflexivity. congruence. Qed.

Lemma step_crlf rs r f st k :
  st <> IN_QUOTED -> input !! (k + 1)%nat = Some LF ->
  step {| rows := rs; row := r; field := f; state := st; i := k |} CR
  = Ok {| rows := rs ++ [r ++ [f]]; row := []; field := []; state := START_FIELD;
          i := (k + 2)%nat |}.
Proof.
  intros Hst Hnext. unfold CSV.step. cbv zeta. cbn [i state].
  rewrite next_lookup, Hnext.
  destruct st; try reflexivity. congruence.
Qed.

Lemma bare_ok_facts (ch : Z) :
  bare_ok ch = true ->
  (ch =? DQ) = false /\ (ch =? COMMA) = false /\ (ch =? CR) = false /\
  (ch =? LF) = false /\ isControl ch && negb (ch =? TAB) = false.
Proof.
  unfold bare_ok. intros H.
  apply andb_prop in H as [H Hctl]. apply andb_prop in H as [Hcomma Hdq].
  apply negb_true_iff in Hcomma, Hdq, Hctl.
  repeat split; try assumption.
  - destruct (Z.eqb_spec ch CR) as [->|]; [discriminate Hctl|reflexivity].
  - destruct (Z.eqb_spec ch LF) as [->|]; [discriminate Hctl|reflexivity].
Qed.

Lemma step_bare rs r f st k ch :
  bare_ok ch = true -> st = START_FIELD \/ st = IN_FIELD ->
  step {| rows := rs; row := r; field := f; state := st; i := k |} ch
  = Ok {| rows := rs; row := r; field := f ++ [ch]; state := IN_FIELD;
          i := (k + 1)%nat |}.
Proof.
  intros Hok Hst.
  destruct (bare_ok_facts ch Hok) as (Hdq & Hcomma & Hcr & Hlf & Hctl).
  unfold CSV.step. cbv zeta. cbn [i state].
  rewrite Hdq, Hcomma, Hcr, Hlf, Hctl. cbn [andb orb].
  rewrite andb_false_r.
  destruct Hst as [-> | ->]; reflexivity.
Qed.

Lemma step_quote_in_field rs r f k :
  step {| rows := rs; row := r; field := f; state := IN_FIELD; i := k |} DQ
  = if strict then Throw QuoteInsideUnquotedField
    else Ok {| rows := rs; row := r; field := f ++ [DQ]; state := IN_FIELD;
               i := (k + 1)%nat |}.
Proof. unfold CSV.step. destruct strict; reflexivity. Qed.

Lemma step_after_closing_quote rs r f k ch :
  bare_ok ch = true ->
  step {| rows := rs; row := r; field := f; state := AFTER_QUOTE; i := k |} ch
  = if strict then Throw InvalidCharacterAfterClosingQuote
    else Ok {| rows := rs; row := r; field := f ++ [ch]; state := IN_FIELD;
               i := (k + 1)%nat |}.
Proof.
  intros Hok.
  destruct (bare_ok_facts ch Hok) as (Hdq & Hcomma & Hcr & Hlf & Hctl).
  unfold CSV.step. cbv zeta. cbn [i state].
  rewrite Hdq, Hcomma, Hcr, Hlf. destruct strict; reflexivity.
Qed.

Lemma step_bare_newline rs r f st k ch :
  strict = true ->
  (ch = LF /\ allowBareLF = false)
  \/ (ch = CR /\ allowBareCR = false /\ input !! (k + 1)%nat <> Some LF) ->
  step {| rows := rs; row := r; field := f; state := st; i := k |} ch
  = match st with
    | START_FIELD => Throw BareNewlineNotAllowed
    | IN_FIELD => Throw IllegalCharacterInUnquotedField
    | AFTER_QUOTE => Throw InvalidCharacterAfterClosingQuote
    | IN_QUOTED =>
        Ok {| rows := rs; row := r; field := f ++ [ch]; state := IN_QUOTED;
              i := (k + 1)%nat |}
    end.
Proof.
  intros -> [[-> ->]|(-> & -> & Hnext)].
  - unfold CSV.step. cbv zeta. cbn [i state]. rewrite andb_false_r.
    destruct st; reflexivity.
  - assert (E : is_char (input !! (k + 1)%nat) LF = false).
    { destruct (input !! (k + 1)%nat) as [x|]; [|reflexivity]. simpl.
      destruct (Z.eqb_spec x LF); [subst; congruence|reflexivity]. }
    unfold CSV.step. cbv zeta. cbn [i state]. rewrite next_lookup, E.
    rewrite !andb_false_r. destruct st; reflexivity.
Qed.

(** *** Fields *)

(** Inside quotes: the escaped content up to the closing quote. *)
Lemma read_quoted_content (f : list Z) :
  forall rs r f0 k rest,
    drop k input = escape f ++ DQ :: rest ->
    reaches {| rows := rs; row := r; field := f0; state := IN_QUOTED; i := k |}
            {| rows := rs; row := r; field := f0 ++ f; state := AFTER_QUOTE;
               i := (k + length (escape f) + 1)%nat |}.
Proof.
  induction f as [|ch f IH]; intros rs r f0 k rest Hs.
  - simpl in Hs. destruct (suffix_cons _ _ _ Hs) as (Hch & _ & _).
    eapply reaches_step; [exact Hch|].
    rewrite step_in_quoted. simpl. rewrite app_nil_r, Nat.add_0_r. reflexivity.
  - simpl in Hs. destruct (Z.eqb_spec ch DQ) as [->|Hne].
    + simpl in Hs.
      destruct (suffix_cons _ _ _ Hs) as (Hch & Hs1 & _).
      destruct (suffix_cons _ _ _ Hs1) as (Hch1 & Hs2 & _).
      eapply reaches_trans;
        [eapply reaches_step; [exact Hch|rewrite step_in_quoted; reflexivity]|].
      eapply reaches_trans;
        [eapply reaches_step; [exact Hch1|apply step_second_quote]|].
      specialize (IH rs r (f0 ++ [DQ]) (k + 1 + 1)%nat rest Hs2).
      replace (f0 ++ DQ :: f) with ((f0 ++ [DQ]) ++ f)
        by (rewrite <- app_assoc; reflexivity).
      replace (k + length (escape (DQ :: f)) + 1)%nat
        with (k + 1 + 1 + length (escape f) + 1)%nat by (simpl; lia).
      exact IH.
    + simpl in Hs.
      destruct (suffix_cons _ _ _ Hs) as (Hch & Hs1 & _).
      eapply reaches_trans.
      { eapply reaches_step; [exact Hch|]. rewrite step_in_quoted.
        destruct (Z.eqb_spec ch DQ); [congruence|reflexivity]. }
      specialize (IH rs r (f0 ++ [ch]) (k + 1)%nat rest Hs1).
      replace (f0 ++ ch :: f) with ((f0 ++ [ch]) ++ f)
        by (rewrite <- app_assoc; reflexivity).
      replace (k + length (escape (ch :: f)) + 1)%nat
        with (k + 1 + length (escape f) + 1)%nat.
      * exact IH.
      * simpl. destruct (Z.eqb_spec ch DQ); [congruence|]. simpl. lia.
Qed.

(** Outside quotes: a run of code units that need no quoting. *)
Lemma read_bare_content (f : list Z) :
  forall rs r f0 st k rest,
    forallb bare_ok f = true -> st = START_FIELD \/ st = IN_FIELD ->
    drop k input = f ++ rest ->
    reaches {| rows := rs; row := r; field := f0; state := st; i := k |}
            {| rows := rs; row := r; field := f0 ++ f;
               state := match f with [] => st | _ :: _ => IN_FIELD end;
               i := (k + length f)%nat |}.
Proof.
  induction f as [|ch f IH]; intros rs r f0 st k rest Hok Hst Hs.
  - simpl. rewrite app_nil_r, Nat.add_0_r. apply reaches_refl.
  - simpl in Hok. apply andb_prop in Hok as [Hch Hok]. simpl in Hs.
    destruct (suffix_cons _ _ _ Hs) as (Hlook & Hs1 & _).
    pose proof (IH rs r (f0 ++ [ch]) IN_FIELD (k + 1)%nat rest Hok
                  (or_intror eq_refl) Hs1) as Hreach.
    eapply reaches_trans;
      [eapply reaches_step; [exact Hlook|apply step_bare; assumption]|].
    replace (f0 ++ ch :: f) with ((f0 ++ [ch]) ++ f)
      by (rewrite <- app_assoc; reflexivity).
    replace (k + length (ch :: f))%nat with (k + 1 + length f)%nat by (simpl; lia).
    destruct f; exact Hreach.
Qed.

Lemma state_after_not_quoted (c : cell) : state_after c <> IN_QUOTED.
Proof. destruct c as [f|[|x f]]; discriminate. Qed.

(** One cell, from the start of a field to just before its separator. *)
Lemma read_cell (c : cell) rs r k rest :
  writable c = true ->
  drop k input = write_cell c ++ rest ->
  reaches {| rows := rs; row := r; field := []; state := START_FIELD; i := k |}
          {| rows := rs; row := r; field := content c; state := state_after c;
             i := (k + length (write_cell c))%nat |}.
Proof.
  intros Hw Hs. destruct c as [f|f]; simpl in *.
  - destruct (suffix_cons _ _ _ Hs) as (Hch & Hs1 & _).
    rewrite <- app_assoc in Hs1. simpl in Hs1.
    eapply reaches_trans;
      [eapply reaches_step; [exact Hch|apply step_open_quote]|].
    pose proof (read_quoted_content f rs r [] (k + 1)%nat rest Hs1) as H.
    simpl in H.
    replace (k + S (length (escape f ++ [DQ])))%nat
      with (k + 1 + length (escape f) + 1)%nat
      by (rewrite length_app; simpl; lia).
    exact H.
  - pose proof (read_bare_content f rs r [] START_FIELD k rest Hw
                  (or_introl eq_refl) Hs) as H.
    destruct f; exact H.
Qed.

(** *** Records and tables *)

Variable nl : list Z.
Hypothesis Hnl : newline_for allowBareLF allowBareCR nl.

(** The newline after a field ends the record.  A CR alone must not be
    followed by LF, or the two would be read as one CRLF. *)
Lemma read_newline rs r f st k rest :
  st <> IN_QUOTED ->
  drop k input = nl ++ rest ->
  (nl = [CR] -> head rest <> Some LF) ->
  reaches {| rows := rs; row := r; field := f; state := st; i := k |}
          {| rows := rs ++ [r ++ [f]]; row := []; field := [];
             state := START_FIELD; i := (k + length nl)%nat |}.
Proof.
  intros Hst Hs Hrest.
  destruct Hnl as [->|[[-> Hlf]|[-> Hcr]]]; simpl in Hs;
    destruct (suffix_cons _ _ _ Hs) as (Hch & _ & Hnext);
    (eapply reaches_step; [exact Hch|]).
  - apply step_crlf; assumption.
  - unfold CSV.step. rewrite Hlf. destruct st; try reflexivity. congruence.
  - assert (E : is_char (input !! (k + 1)%nat) LF = false).
    { rewrite Hnext. specialize (Hrest eq_refl).
      destruct (head rest) as [x|]; [|reflexivity]. simpl.
      destruct (Z.eqb_spec x LF); [subst; congruence|reflexivity]. }
    unfold CSV.step. cbv zeta. cbn [i state]. rewrite next_lookup, E, Hcr.
    destruct st; try reflexivity. congruence.
Qed.

(** A written record does not begin with LF. *)
Lemma written_record_head (cells : list cell) (rest : list Z) :
  Forall (fun c => writable c = true) cells ->
  head rest <> Some LF -> head (write_record cells ++ rest) <> Some LF.
Proof.
  intros Hw Hrest. destruct cells as [|c cells]; [exact Hrest|].
  inversion Hw as [|? ? Hc _]; subst.
  assert (Hcell : forall more, head more <> Some LF ->
                               head (write_cell c ++ more) <> Some LF).
  { intros more Hmore. destruct c as [f|[|x f]]; simpl; try discriminate.
    - exact Hmore.
    - simpl in Hc. apply andb_prop in Hc as [Hx _].
      destruct (bare_ok_facts x Hx) as (_ & _ & _ & Hlf & _).
      intros E. inversion E; subst. discriminate Hlf. }
  destruct cells as [|c2 cells].
  - simpl. apply Hcell. exact Hrest.
  - change (write_record (c :: c2 :: cells))
      with (write_cell c ++ COMMA :: write_record (c2 :: cells)).
    rewrite <- app_assoc. apply Hcell. discriminate.
Qed.

(** A record that is not ended: the parser stops on its last field. *)
Lemma read_open_record (cells : list cell) :
  cells <> [] -> Forall (fun c => writable c = true) cells ->
  forall rs r k rest,
    drop k input = write_record cells ++ rest ->
    reaches {| rows := rs; row := r; field := []; state := START_FIELD; i := k |}
            {| rows := rs; row := r ++ map content (removelast cells);
               field := content (last cells (Bare []));
               state := state_after (last cells (Bare []));
               i := (k + length (write_record cells))%nat |}.
Proof.
  induction cells as [|c cells IH]; [congruence|]. intros _ Hw rs r k rest Hs.
  inversion Hw as [|? ? Hc Hcells]; subst.
  destruct cells as [|c2 cells].
  - simpl in *. rewrite app_nil_r. exact (read_cell c rs r k _ Hc Hs).
  - change (write_record (c :: c2 :: cells))
      with (write_cell c ++ COMMA :: write_record (c2 :: cells)) in *.
    rewrite <- app_assoc in Hs.
    pose proof (read_cell c rs r k _ Hc Hs) as Hreach.
    apply suffix_app in Hs. simpl in Hs.
    destruct (suffix_cons _ _ _ Hs) as (Hch & Hs1 & _).
    pose proof (IH ltac:(discriminate) Hcells rs (r ++ [content c])
                  (k + length (write_cell c) + 1)%nat rest Hs1) as Hreach'.
    eapply reaches_trans; [exact Hreach|].
    eapply reaches_trans;
      [eapply reaches_step;
       [exact Hch|apply step_comma; apply state_after_not_quoted]|].
    change (removelast (c :: c2 :: cells)) with (c :: removelast (c2 :: cells)).
    change (last (c :: c2 :: cells) (Bare [])) with (last (c2 :: cells) (Bare [])).
    replace (r ++ map content (c :: removelast (c2 :: cells)))
      with ((r ++ [content c]) ++ map content (removelast (c2 :: cells)))
      by (rewrite <- app_assoc; reflexivity).
    replace (k + length (write_cell c ++ COMMA :: write_record (c2 :: cells)))%nat
      with (k + length (write_cell c) + 1 + length (write_record (c2 :: cells)))%nat
      by (rewrite length_app; simpl; lia).
    exact Hreach'.
Qed.

(** A record and its newline. *)
Lemma read_record (cells : list cell) rs r k rest :
  cells <> [] -> Forall (fun c => writable c = true) cells ->
  drop k input = write_record cells ++ nl ++ rest ->
  (nl = [CR] -> head rest <> Some LF) ->
  reaches {| rows := rs; row := r; field := []; state := START_FIELD; i := k |}
          {| rows := rs ++ [r ++ map content cells]; row := []; field := [];
             state := START_FIELD;
             i := (k + length (write_record cells) + length nl)%nat |}.
Proof.
  intros Hne Hw Hs Hrest.
  pose proof (read_open_record cells Hne Hw rs r k _ Hs) as Hreach.
  apply suffix_app in Hs.
  eapply reaches_trans; [exact Hreach|].
  pose proof (read_newline rs (r ++ map content (removelast cells))
                (content (last cells (Bare [])))
                (state_after (last cells (Bare []))) _ rest
                (state_after_not_quoted _) Hs Hrest) as H.
  replace (r ++ map content cells)
    with ((r ++ map content (removelast cells)) ++ [content (last cells (Bare []))]).
  - exact H.
  - rewrite <- app_assoc. f_equal.
    rewrite (app_removelast_last (Bare []) Hne) at 3.
    rewrite map_app. reflexivity.
Qed.

Lemma read_lines (t : list (list cell)) :
  Forall (fun cells => cells <> [] /\ Forall (fun c => writable c = true) cells) t ->
  forall rs k rest,
    drop k input = write_lines nl t ++ rest ->
    (nl = [CR] -> head rest <> Some LF) ->
    reaches {| rows := rs; row := []; field := []; state := START_FIELD; i := k |}
            {| rows := rs ++ map (map content) t; row := []; field := [];
               state := START_FIELD; i := (k + length (write_lines nl t))%nat |}.
Proof.
  induction t as [|cells t IH]; intros Ht rs k rest Hs Hrest.
  - simpl. rewrite app_nil_r, Nat.add_0_r. apply reaches_refl.
  - inversion Ht as [|? ? [Hne Hw] Ht']; subst.
    change (write_lines nl (cells :: t))
      with ((write_record cells ++ nl) ++ write_lines nl t) in *.
    rewrite <- !app_assoc in Hs.
    eapply reaches_trans.
    { apply (read_record cells rs [] k _ Hne Hw Hs).
      intros ->. destruct t as [|cells' t]; [exact (Hrest eq_refl)|].
      inversion Ht' as [|? ? [_ Hw'] _]; subst.
      change (write_lines [CR] (cells' :: t))
        with ((write_record cells' ++ [CR]) ++ write_lines [CR] t).
      rewrite <- !app_assoc. apply written_record_head; [exact Hw'|discriminate]. }
    apply suffix_app in Hs. apply suffix_app in Hs.
    specialize (IH Ht' (rs ++ [map content cells])
                  (k + length (write_record cells) + length nl)%nat rest Hs Hrest).
    replace (rs ++ map (map content) (cells :: t))
      with ((rs ++ [map content cells]) ++ map (map content) t)
      by (rewrite <- app_assoc; reflexivity).
    replace (k + length ((write_record cells ++ nl) ++ write_lines nl t))%nat
      with (k + length (write_record cells) + length nl + length (write_lines nl t))%nat
      by (rewrite !length_app; lia).
    exact IH.
Qed.

(** From a position the loop gets to with nothing left to read, the loop
    ends there. *)
Lemma reaches_end (l : locals) :
  reaches initial l -> i l = length input ->
  while_i (length input) initial = Some (Ok l).
Proof.
  intros Hreach Hi.
  destruct (Hreach O (Ok l)) as [fuel' H].
  - simpl. rewrite (proj2 (lookup_ge_None input (i l))) by lia. reflexivity.
  - eapply while_i_enough; [exact H|simpl; lia].
Qed.

(** From a position the loop gets to, a pass that throws ends the parse. *)
Lemma reaches_throw (l : locals) (ch : Z) (e : SyntaxError) :
  reaches initial l -> input !! i l = Some ch -> step l ch = Throw e ->
  while_i (length input) initial = Some (Throw e).
Proof.
  intros Hreach Hch Hstep.
  destruct (Hreach 1%nat (Throw e)) as [fuel' H].
  - simpl. rewrite Hch, Hstep. reflexivity.
  - eapply while_i_enough; [exact H|simpl; lia].
Qed.

(** Written lines and then a record that is still open. *)
Lemma read_lines_then_record (t : list (list cell)) (cells : list cell)
    (rest : list Z) :
  Forall (fun cells => cells <> [] /\ Forall (fun c => writable c = true) cells) t ->
  cells <> [] -> Forall (fun c => writable c = true) cells ->
  input = write_lines nl t ++ write_record cells ++ rest ->
  (nl = [CR] -> head rest <> Some LF) ->
  reaches initial
          {| rows := map (map content) t;
             row := map content (removelast cells);
             field := content (last cells (Bare []));
             state := state_after (last cells (Bare []));
             i := (length (write_lines nl t) + length (write_record cells))%nat |} /\
  drop (length (write_lines nl t) + length (write_record cells)) input = rest.
Proof.
  intros Ht Hne Hw Hin Hrest.
  assert (Hs : drop 0 input = write_lines nl t ++ write_record cells ++ rest)
    by exact Hin.
  pose proof (read_lines t Ht [] O _ Hs
                ltac:(intros E; apply written_record_head;
                      [exact Hw|exact (Hrest E)])) as H1.
  apply suffix_app in Hs. simpl in Hs, H1.
  pose proof (read_open_record cells Hne Hw (map (map content) t) [] _ _ Hs) as H2.
  simpl in H2. split; [exact (reaches_trans _ _ _ H1 H2)|].
  apply suffix_app in Hs. exact Hs.
Qed.

(** The input stops inside a bare field that holds something. *)
Lemma finish_in_field rs r f0 k g :
  reaches initial {| rows := rs; row := r; field := f0; state := IN_FIELD; i := k |} ->
  drop k input = g -> (k + length g)%nat = length input ->
  forallb bare_ok g = true -> f0 <> [] ->
  parse strict allowBareLF allowBareCR input = Some (Ok (rs ++ [r ++ [f0 ++ g]])).
Proof.
  intros Hreach Hs Hk Hg Hne.
  assert (Hs' : drop k input = g ++ []) by (rewrite app_nil_r; exact Hs).
  pose proof (read_bare_content g rs r f0 IN_FIELD k [] Hg (or_intror eq_refl) Hs')
    as Hread.
  unfold parse.
  rewrite (reaches_end _ (reaches_trans _ _ _ Hreach Hread) Hk).
  unfold at_eof. simpl.
  assert (Hfield : f0 ++ g <> []) by (destruct f0; [congruence|discriminate]).
  rewrite (bool_decide_eq_false_2 _ Hfield).
  destruct g; reflexivity.
Qed.

End ReadBack.

Lemma newline_for_opts (opts : Opts) (nl : list Z) :
  nl = [CR; LF] \/ (nl = [LF] /\ opt_allowBareLF opts = Some true)
  \/ (nl = [CR] /\ opt_allowBareCR opts = Some true) ->
  newline_for (bool_decide (opt_allowBareLF opts = Some true))
              (bool_decide (opt_allowBareCR opts = Some true)) nl.
Proof.
  intros [H|[[H E]|[H E]]]; [left; exact H|right; left|right; right];
    (split; [exact H|apply bool_decide_eq_true_2; exact E]).
Qed.

(** X12.  [parseCSV] reads back what was written: take any table whose
    records have at least one field, write each field either in quotes
    with its quotes doubled (any content: commas, CR, LF, quotes, control
    characters) or bare (no comma, no quote, no control character but
    TAB), with commas between fields and a newline after every record;
    the parse of that text is the table.  The newline is CRLF under any
    options, or LF alone when [allowBareLF] is set, or CR alone when
    [allowBareCR] is set; [strict] makes no difference. *)
Theorem parse_written_lines (nl : list Z) (t : list (list cell)) (opts : Opts) :
  nl = [CR; LF] \/ (nl = [LF] /\ opt_allowBareLF opts = Some true)
  \/ (nl = [CR] /\ opt_allowBareCR opts = Some true) ->
  Forall (fun cells => cells <> [] /\ Forall (fun c => writable c = true) cells) t ->
  parseCSV (write_lines nl t) opts = Some (Ok (map (map content) t)).
Proof.
  intros Hnl Ht. apply newline_for_opts in Hnl. unfold parseCSV, parse.
  match goal with |- context [CSV.while_i ?s ?lf ?cr ?inp (length ?inp) initial] =>
    pose proof (read_lines s lf cr inp nl Hnl t Ht [] O []) as Hreach;
    rewrite (reaches_end s lf cr inp _
               (Hreach ltac:(symmetry; apply app_nil_r) ltac:(discriminate))
               eq_refl)
  end.
  reflexivity.
Qed.

Lemma parse_written_lines_witness :
  parseCSV
    [DQ; 97; COMMA; 98; DQ; COMMA; 99; CR; LF;
     COMMA; DQ; 120; DQ; DQ; 121; CR; LF; DQ; CR; LF]
    (options true false false)
  = Some (Ok [[[97; COMMA; 98]; [99]]; [[]; [120; DQ; 121; CR; LF]]]) /\
  parseCSV [97; COMMA; 98; LF; LF; DQ; DQ; LF]
    {| opt_strict := None; opt_allowBareLF := Some true; opt_allowBareCR := None |}
  = Some (Ok [[[97]; [98]]; [[]]; [[]]]) /\
  parseCSV [97; CR; CR; 98; CR] (options false false true)
  = Some (Ok [[[97]]; [[]]; [[98]]]).
Proof.
  split; [|split].
  - apply (parse_written_lines [CR; LF]
             [[Quoted [97; COMMA; 98]; Bare [99]];
              [Bare []; Quoted [120; DQ; 121; CR; LF]]]).
    + left. reflexivity.
    + repeat constructor; discriminate.
  - apply (parse_written_lines [LF]
             [[Bare [97]; Bare [98]]; [Bare []]; [Quoted []]]).
    + right. left. split; reflexivity.
    + repeat constructor; discriminate.
  - apply (parse_written_lines [CR] [[Bare [97]]; [Bare []]; [Bare [98]]]).
    + right. right. split; reflexivity.
    + repeat constructor; discriminate.
Defined.

(** X13.  The same text with its last record not ended (records joined
    by the newline): the parse is still the whole table, unless the last
    record is a single empty field, quoted or bare, and then that record
    is missing from the result. *)
Theorem parse_joined_lines (nl : list Z) (t : list (list cell))
    (cells : list cell) (opts : Opts) :
  nl = [CR; LF] \/ (nl = [LF] /\ opt_allowBareLF opts = Some true)
  \/ (nl = [CR] /\ opt_allowBareCR opts = Some true) ->
  Forall (fun cells => cells <> [] /\ Forall (fun c => writable c = true) cells) t ->
  cells <> [] -> Forall (fun c => writable c = true) cells ->
  (map content cells <> [[]] ->
   parseCSV (write_lines nl t ++ write_record cells) opts
   = Some (Ok (map (map content) (t ++ [cells])))) /\
  (map content cells = [[]] ->
   parseCSV (write_lines nl t ++ write_record cells) opts
   = Some (Ok (map (map content) t))).
Proof.
  intros Hnl Ht Hne Hw. apply newline_for_opts in Hnl. unfold parseCSV, parse.
  match goal with |- context [CSV.while_i ?s ?lf ?cr ?inp (length ?inp) initial] =>
    pose proof (read_lines s lf cr inp nl Hnl t Ht [] O (write_record cells) eq_refl)
      as Hreach;
    pose proof (read_open_record s lf cr inp cells Hne Hw
                  (map (map content) t) [] (length (write_lines nl t)) []
                  ltac:(rewrite app_nil_r; apply drop_app_length)) as Hreach';
    pose proof (state_after_not_quoted (last cells (Bare []))) as Hst';
    pose proof (reaches_end s lf cr inp _
                  (reaches_trans _ _ _ _ _ _ _
                     (Hreach ltac:(intros _; rewrite <- (app_nil_r (write_record cells));
                                   apply written_record_head;
                                   [exact Hw|discriminate]))
                     Hreach')) as Hloop
  end.
  assert (Hmap : map content cells
                 = map content (removelast cells) ++ [content (last cells (Bare []))]).
  { rewrite (app_removelast_last (Bare []) Hne) at 1. rewrite map_app. reflexivity. }
  simpl in Hloop. rewrite Hloop by (rewrite length_app; reflexivity).
  unfold at_eof. cbn [state field row rows].
  rewrite map_app. cbn [map]. rewrite Hmap.
  revert Hst'. generalize (state_after (last cells (Bare []))) as st'.
  generalize (map content (removelast cells)) as init.
  generalize (content (last cells (Bare []))) as lastf.
  intros lastf init st' Hst'.
  destruct init as [|f0 init], lastf as [|x lastf]; simpl.
  - split; [congruence|]. intros _.
    destruct st'; try reflexivity; congruence.
  - split; [intros _|discriminate]. destruct st'; try reflexivity; congruence.
  - split; [intros _|intros H; destruct init; discriminate H].
    destruct st'; try reflexivity; congruence.
  - split; [intros _|intros H; destruct init; discriminate H].
    destruct st'; try reflexivity; congruence.
Qed.

(** ** Errors and recoveries *)

Lemma strict_flag (opts : Opts) :
  opt_strict opts <> Some false ->
  negb (bool_decide (opt_strict opts = Some false)) = true.
Proof. intros H. rewrite bool_decide_eq_false_2 by exact H. reflexivity. Qed.

Lemma lenient_flag (opts : Opts) :
  opt_strict opts = Some false ->
  negb (bool_decide (opt_strict opts = Some false)) = false.
Proof. intros H. rewrite bool_decide_eq_true_2 by exact H. reflexivity. Qed.

(** X14.  A bare CR or LF that the options do not allow, met in strict
    mode after written lines and the fields of a record: the error
    depends on the field it follows.  After an empty bare field it is
    "Bare newline is not allowed", after a bare field with content it is
    "Illegal character in unquoted field", after a quoted field it is
    "Invalid character after closing quote"; what comes after it is not
    looked at. *)
Theorem bare_newline_error (t : list (list cell)) (cells : list cell)
    (b : Z) (rest : list Z) (opts : Opts) :
  Forall (fun cells => cells <> [] /\ Forall (fun c => writable c = true) cells) t ->
  cells <> [] -> Forall (fun c => writable c = true) cells ->
  opt_strict opts <> Some false ->
  (b = LF /\ opt_allowBareLF opts <> Some true)
  \/ (b = CR /\ opt_allowBareCR opts <> Some true /\ head rest <> Some LF) ->
  parseCSV (write_lines [CR; LF] t ++ write_record cells ++ b :: rest) opts
  = Some (Throw match last cells (Bare []) with
                | Quoted _ => InvalidCharacterAfterClosingQuote
                | Bare [] => BareNewlineNotAllowed
                | Bare (_ :: _) => IllegalCharacterInUnquotedField
                end).
Proof.
  intros Ht Hne Hw Hstrict Hb. unfold parseCSV, parse.
  rewrite (strict_flag _ Hstrict).
  set (lf := bool_decide (opt_allowBareLF opts = Some true)).
  set (cr := bool_decide (opt_allowBareCR opts = Some true)).
  set (input := write_lines [CR; LF] t ++ write_record cells ++ b :: rest).
  destruct (read_lines_then_record true lf cr input [CR; LF] (or_introl eq_refl)
              t cells (b :: rest) Ht Hne Hw eq_refl ltac:(discriminate))
    as [Hreach Hs].
  destruct (suffix_cons _ _ _ _ Hs) as (Hch & _ & Hnext).
  erewrite reaches_throw; [reflexivity|exact Hreach|exact Hch|].
  rewrite step_bare_newline.
  - destruct (last cells (Bare [])) as [f|[|x f]]; reflexivity.
  - reflexivity.
  - cbn [i]. rewrite Hnext.
    destruct Hb as [[-> Hlf]|(-> & Hcr & Hrest)]; [left|right].
    + split; [reflexivity|]. apply bool_decide_eq_false_2. exact Hlf.
    + split; [reflexivity|]. split; [|exact Hrest].
      apply bool_decide_eq_false_2. exact Hcr.
Qed.

Lemma bare_newline_error_witness :
  parseCSV [120; CR; LF; 97; COMMA; LF; 98] (options true false false)
  = Some (Throw BareNewlineNotAllowed) /\
  parseCSV [97; CR; 98] (options true true false)
  = Some (Throw IllegalCharacterInUnquotedField) /\
  parseCSV [DQ; 97; DQ; LF] (options true false true)
  = Some (Throw InvalidCharacterAfterClosingQuote).
Proof.
  split; [|split].
  - apply (bare_newline_error [[Bare [120]]] [Bare [97]; Bare []] LF [98]).
    + repeat constructor; discriminate.
    + discriminate.
    + repeat constructor.
    + discriminate.
    + left. split; [reflexivity|discriminate].
  - apply (bare_newline_error [] [Bare [97]] CR [98]).
    + constructor.
    + discriminate.
    + repeat constructor.
    + discriminate.
    + right. split; [reflexivity|]. split; discriminate.
  - apply (bare_newline_error [] [Quoted [97]] LF []).
    + constructor.
    + discriminate.
    + repeat constructor.
    + discriminate.
    + left. split; [reflexivity|discriminate].
Defined.

(** X15.  A quote met inside a bare field that already has content,
    after written lines and the earlier fields of the record: strict mode
    throws "Quote inside unquoted field" whatever follows; lenient mode
    keeps the quote as data, and when only code units that need no
    quoting follow, the field runs to the end of the input. *)
Theorem quote_inside_bare_field (nl : list Z) (t : list (list cell))
    (cells : list cell) (f rest : list Z) (opts : Opts) :
  nl = [CR; LF] \/ (nl = [LF] /\ opt_allowBareLF opts = Some true)
  \/ (nl = [CR] /\ opt_allowBareCR opts = Some true) ->
  Forall (fun cells => cells <> [] /\ Forall (fun c => writable c = true) cells) t ->
  Forall (fun c => writable c = true) cells ->
  f <> [] -> forallb bare_ok f = true ->
  (opt_strict opts <> Some false ->
   parseCSV (write_lines nl t ++ write_record (cells ++ [Bare f]) ++ DQ :: rest) opts
   = Some (Throw QuoteInsideUnquotedField)) /\
  (opt_strict opts = Some false -> forallb bare_ok rest = true ->
   parseCSV (write_lines nl t ++ write_record (cells ++ [Bare f]) ++ DQ :: rest) opts
   = Some (Ok (map (map content) t ++ [map content cells ++ [f ++ DQ :: rest]]))).
Proof.
  intros Hnl Ht Hw Hne Hf. apply newline_for_opts in Hnl.
  assert (Hw' : Forall (fun c => writable c = true) (cells ++ [Bare f])).
  { apply Forall_app. split; [exact Hw|]. constructor; [exact Hf|constructor]. }
  assert (Hne' : cells ++ [Bare f] <> []) by (destruct cells; discriminate).
  unfold parseCSV.
  set (lf := bool_decide (opt_allowBareLF opts = Some true)) in *.
  set (cr := bool_decide (opt_allowBareCR opts = Some true)) in *.
  set (input := write_lines nl t ++ write_record (cells ++ [Bare f]) ++ DQ :: rest).
  assert (Hread : forall s,
             reaches s lf cr input initial
               {| rows := map (map content) t; row := map content cells;
                  field := f; state := IN_FIELD;
                  i := (length (write_lines nl t)
                        + length (write_record (cells ++ [Bare f])))%nat |} /\
             drop (length (write_lines nl t)
                   + length (write_record (cells ++ [Bare f]))) input
             = DQ :: rest).
  { intros s.
    destruct (read_lines_then_record s lf cr input nl Hnl t (cells ++ [Bare f])
                (DQ :: rest) Ht Hne' Hw' eq_refl ltac:(discriminate)) as [H1 H2].
    rewrite removelast_last, last_last in H1. simpl in H1.
    destruct f; [congruence|]. split; assumption. }
  split.
  - intros Hstrict. rewrite (strict_flag _ Hstrict). unfold parse.
    destruct (Hread true) as [Hreach Hs].
    destruct (suffix_cons _ _ _ _ Hs) as (Hch & _ & _).
    erewrite reaches_throw; [reflexivity|exact Hreach|exact Hch|].
    rewrite step_quote_in_field. reflexivity.
  - intros Hlenient Hrest. rewrite (lenient_flag _ Hlenient).
    destruct (Hread false) as [Hreach Hs].
    destruct (suffix_cons _ _ _ _ Hs) as (Hch & Hs1 & _).
    replace (f ++ DQ :: rest) with ((f ++ [DQ]) ++ rest)
      by (rewrite <- app_assoc; reflexivity).
    eapply finish_in_field.
    + eapply reaches_trans; [exact Hreach|].
      eapply reaches_step; [exact Hch|]. rewrite step_quote_in_field. reflexivity.
    + exact Hs1.
    + unfold input. rewrite !length_app. simpl. lia.
    + exact Hrest.
    + destruct f; discriminate.
Qed.

Lemma quote_inside_bare_field_witness :
  parseCSV [120; COMMA; 97; 98; DQ; 99; COMMA] (options true false false)
  = Some (Throw QuoteInsideUnquotedField) /\
  parseCSV [120; COMMA; 97; 98; DQ; 99] (options false false false)
  = Some (Ok [[[120]; [97; 98; DQ; 99]]]).
Proof.
  split.
  - apply (quote_inside_bare_field [CR; LF] [] [Bare [120]] [97; 98] [99; COMMA]);
      try reflexivity; try discriminate.
    + left. reflexivity.
    + constructor.
    + repeat constructor.
  - apply (quote_inside_bare_field [CR; LF] [] [Bare [120]] [97; 98] [99]);
      try reflexivity; try discriminate.
    + left. reflexivity.
    + constructor.
    + repeat constructor.
Defined.

(** X16.  A code unit that needs no quoting, met right after the closing
    quote of a quoted field: strict mode throws "Invalid character after
    closing quote" whatever follows; lenient mode appends it to the field
    and goes on as in a bare field, so that when only such code units
    follow, the field is the quoted content followed by them. *)
Theorem text_after_closing_quote (nl : list Z) (t : list (list cell))
    (cells : list cell) (f : list Z) (x : Z) (rest : list Z) (opts : Opts) :
  nl = [CR; LF] \/ (nl = [LF] /\ opt_allowBareLF opts = Some true)
  \/ (nl = [CR] /\ opt_allowBareCR opts = Some true) ->
  Forall (fun cells => cells <> [] /\ Forall (fun c => writable c = true) cells) t ->
  Forall (fun c => writable c = true) cells ->
  bare_ok x = true ->
  (opt_strict opts <> Some false ->
   parseCSV (write_lines nl t ++ write_record (cells ++ [Quoted f]) ++ x :: rest) opts
   = Some (Throw InvalidCharacterAfterClosingQuote)) /\
  (opt_strict opts = Some false -> forallb bare_ok rest = true ->
   parseCSV (write_lines nl t ++ write_record (cells ++ [Quoted f]) ++ x :: rest) opts
   = Some (Ok (map (map content) t ++ [map content cells ++ [f ++ x :: rest]]))).
Proof.
  intros Hnl Ht Hw Hx. apply newline_for_opts in Hnl.
  assert (Hw' : Forall (fun c => writable c = true) (cells ++ [Quoted f])).
  { apply Forall_app. split; [exact Hw|]. repeat constructor. }
  assert (Hne' : cells ++ [Quoted f] <> []) by (destruct cells; discriminate).
  destruct (bare_ok_facts x Hx) as (_ & _ & _ & Hlf & _).
  unfold parseCSV.
  set (lf := bool_decide (opt_allowBareLF opts = Some true)) in *.
  set (cr := bool_decide (opt_allowBareCR opts = Some true)) in *.
  set (input := write_lines nl t ++ write_record (cells ++ [Quoted f]) ++ x :: rest).
  assert (Hread : forall s,
             reaches s lf cr input initial
               {| rows := map (map content) t; row := map content cells;
                  field := f; state := AFTER_QUOTE;
                  i := (length (write_lines nl t)
                        + length (write_record (cells ++ [Quoted f])))%nat |} /\
             drop (length (write_lines nl t)
                   + length (write_record (cells ++ [Quoted f]))) input
             = x :: rest).
  { intros s.
    destruct (read_lines_then_record s lf cr input nl Hnl t (cells ++ [Quoted f])
                (x :: rest) Ht Hne' Hw' eq_refl) as [H1 H2].
    { intros _ E. inversion E; subst. discriminate Hlf. }
    rewrite removelast_last, last_last in H1. simpl in H1.
    split; assumption. }
  split.
  - intros Hstrict. rewrite (strict_flag _ Hstrict). unfold parse.
    destruct (Hread true) as [Hreach Hs].
    destruct (suffix_cons _ _ _ _ Hs) as (Hch & _ & _).
    erewrite reaches_throw; [reflexivity|exact Hreach|exact Hch|].
    rewrite step_after_closing_quote by exact Hx. reflexivity.
  - intros Hlenient Hrest. rewrite (lenient_flag _ Hlenient).
    destruct (Hread false) as [Hreach Hs].
    destruct (suffix_cons _ _ _ _ Hs) as (Hch & Hs1 & _).
    replace (f ++ x :: rest) with ((f ++ [x]) ++ rest)
      by (rewrite <- app_assoc; reflexivity).
    eapply finish_in_field.
    + eapply reaches_trans; [exact Hreach|].
      eapply reaches_step; [exact Hch|].
      rewrite step_after_closing_quote by exact Hx. reflexivity.
    + exact Hs1.
    + unfold input. rewrite !length_app. simpl. lia.
    + exact Hrest.
    + destruct f; discriminate.
Qed.

Lemma text_after_closing_quote_witness :
  parseCSV [DQ; 97; COMMA; DQ; 98; DQ; DQ] (options true false false)
  = Some (Throw InvalidCharacterAfterClosingQuote) /\
  parseCSV [DQ; 97; COMMA; DQ; 98; 99] (options false false false)
  = Some (Ok [[[97; COMMA; 98; 99]]]).
Proof.
  split.
  - apply (text_after_closing_quote [CR; LF] [] [] [97; COMMA] 98 [DQ; DQ]);
      try reflexivity; try discriminate.
    + left. reflexivity.
    + constructor.
    + constructor.
  - apply (text_after_closing_quote [CR; LF] [] [] [97; COMMA] 98 [99]);
      try reflexivity; try discriminate.
    + left. reflexivity.
    + constructor.
    + constructor.
Defined.

Lemma parse_joined_lines_witness :
  Demo.logged
  = Some (Ok [ [[99; 105; 116; 121]; [110; 97; 109; 101];
                [99; 111; 109; 109; 101; 110; 116]];
               [[26481; 20140]; [23665; 30000; 44; 32; 22826; 37070];
                [24444; 12399; 34; 20778; 31168; 34; 12391; 12377; 92; 110;
                 25913; 34892; 12418; 79; 75]];
               [[22823; 38442]; [20304; 34276];
                [105; 116; 101; 109; 49; 13; 10; 105; 116; 101; 109; 50]];
               [[31119; 23713]; [];
                [31354; 12398; 12501; 12451; 12540; 12523; 12489]] ]) /\
  parseCSV [97; CR; LF; DQ; DQ] (options true false false) = Some (Ok [[[97]]]).
Proof.
  split.
  - apply (proj1 (parse_joined_lines [CR; LF]
             [ [Bare [99; 105; 116; 121]; Bare [110; 97; 109; 101];
                Bare [99; 111; 109; 109; 101; 110; 116]];
               [Quoted [26481; 20140];
                Quoted [23665; 30000; 44; 32; 22826; 37070];
                Quoted [24444; 12399; 34; 20778; 31168; 34; 12391; 12377; 92;
                        110; 25913; 34892; 12418; 79; 75]];
               [Bare [22823; 38442]; Bare [20304; 34276];
                Quoted [105; 116; 101; 109; 49; 13; 10; 105; 116; 101; 109; 50]] ]
             [Bare [31119; 23713]; Bare [];
              Bare [31354; 12398; 12501; 12451; 12540; 12523; 12489]]
             {| opt_strict := Some false; opt_allowBareLF := Some false;
                opt_allowBareCR := Some false |}
             (or_introl eq_refl)
             ltac:(repeat constructor; discriminate)
             ltac:(discriminate)
             ltac:(repeat constructor))).
    discriminate.
  - apply (proj2 (parse_joined_lines [CR; LF] [[Bare [97]]] [Quoted []]
             (options true false false)
             (or_introl eq_refl)
             ltac:(repeat constructor; discriminate)
             ltac:(discriminate)
             ltac:(repeat constructor))).
    reflexivity.
Defined.
